(** * scripts/regen_unicode_width_data.py: range tables for Unicode widths

    A shallow embedding of the generator script and the proofs of its
    interval pipeline: the range merger [merge_ranges], the two line
    filters [parse_east_asian_width] and [parse_emoji_vs16_bases], the
    contiguity scan that closes the latter, and the driver [main].

    Python integers are unbounded, so a code point is a [Z]; a range is the
    tuple [(lo, hi)], a pair of [Z]. *)

From Stdlib Require Import ZArith List Bool Lia Ascii String.
From Stdlib Require Import Sorting.Permutation Sorting.Sorted.
From Stdlib Require DecimalString HexadecimalString.
From Stdlib Require HexadecimalPos HexadecimalN.
Import ListNotations.
Local Open Scope Z_scope.

Set Implicit Arguments.

#[local] Arguments Ascii.eqb : simpl never.

(** ** Ranges *)

Definition range : Type := (Z * Z)%type.

Definition lo (r : range) : Z := fst r.
Definition hi (r : range) : Z := snd r.

(** The closed interval a tuple stands for. *)
Definition covers (r : range) (x : Z) : bool := (lo r <=? x) && (x <=? hi r).

Definition covered (rs : list range) (x : Z) : bool := existsb (fun r => covers r x) rs.

Definition valid (r : range) : Prop := lo r <= hi r.

(** ** Python's [sorted]

    [sorted] is a stable sort that only ever asks [x < y].  The model is the
    stable insertion sort over a strict comparison; [sorted_unique] below shows
    that for the two orders the script sorts by (tuples of integers, integers)
    every sorting algorithm returns this very list. *)

Section Sorted.
Variable A : Type.
Variable lt : A -> A -> bool.

Fixpoint insert (x : A) (l : list A) : list A :=
  match l with
  | [] => [x]
  | y :: l' => if lt y x then y :: insert x l' else x :: l
  end.

Fixpoint sorted (l : list A) : list A :=
  match l with
  | [] => []
  | x :: l' => insert x (sorted l')
  end.
End Sorted.

(** Tuples compare lexicographically. *)
Definition tuple_lt (r s : range) : bool :=
  (lo r <? lo s) || ((lo r =? lo s) && (hi r <? hi s)).

Definition tuple_le (r s : range) : Prop :=
  lo r < lo s \/ (lo r = lo s /\ hi r <= hi s).

(** ** merge_ranges (lines 16-27)

    [merged] is never empty inside the loop; the model keeps it split as
    [closed ++ [cur]], where [cur] is the list [merged[-1]] that line 24
    updates in place. *)

Fixpoint merge_loop (closed : list range) (cur : range) (rest : list range)
  : list range :=
  match rest with
  | [] => closed ++ [cur]
  | (l, h) :: rest' =>
      if l <=? hi cur + 1
      then merge_loop closed (lo cur, Z.max (hi cur) h) rest'
      else merge_loop (closed ++ [cur]) (l, h) rest'
  end.

Definition merge_ranges (ranges : list range) : list range :=
  match ranges with
  | [] => []
  | _ :: _ =>
      match sorted tuple_lt ranges with
      | [] => []
      | first :: rest => merge_loop [] first rest
      end
  end.

(** The loop without the accumulator, for induction. *)
Fixpoint merge_from (cur : range) (rest : list range) : list range :=
  match rest with
  | [] => [cur]
  | (l, h) :: rest' =>
      if l <=? hi cur + 1
      then merge_from (lo cur, Z.max (hi cur) h) rest'
      else cur :: merge_from (l, h) rest'
  end.

(** ** Shapes of range lists *)

(** Every range is non-empty and the next one starts beyond [hi + 1]. *)
Fixpoint gap_chain (rs : list range) : Prop :=
  match rs with
  | [] => True
  | r :: rs' =>
      valid r /\
      match rs' with
      | [] => True
      | s :: _ => hi r + 1 < lo s
      end /\ gap_chain rs'
  end.

(** A relation that holds of every two neighbours of a list. *)
Fixpoint neighbours (P : range -> range -> Prop) (rs : list range) : Prop :=
  match rs with
  | [] => True
  | r :: rs' =>
      match rs' with
      | [] => True
      | s :: _ => P r s
      end /\ neighbours P rs'
  end.

Definition disjoint (r s : range) : Prop :=
  forall x, covers r x = true -> covers s x = true -> False.

Definition ascending_lo (rs : list range) : Prop :=
  StronglySorted (fun r s => lo r < lo s) rs.

Definition pairwise_disjoint (rs : list range) : Prop :=
  ForallOrdPairs disjoint rs.

Definition not_adjacent (r s : range) : Prop := hi r + 1 <> lo s.

(** ** Python strings

    A [str] is a sequence of code points.  The model takes the code points
    below 256, one [ascii] each, which covers both Unicode data files. *)

Definition str : Type := list ascii.

Definition lit (s : string) : str := list_ascii_of_string s.
Arguments lit s%_string.

Definition code (c : ascii) : N := N_of_ascii c.

Fixpoint str_eqb (s t : str) : bool :=
  match s, t with
  | [], [] => true
  | a :: s', b :: t' => Ascii.eqb a b && str_eqb s' t'
  | _, _ => false
  end.

(** [str.isspace] on one character: the white space [strip] and [split]
    remove. *)
Definition isspace (c : ascii) : bool :=
  let n := code c in
  ((9 <=? n) && (n <=? 13) || (28 <=? n) && (n <=? 31)
   || (n =? 32) || (n =? 133) || (n =? 160))%N.

(** The line boundaries of [str.splitlines]. *)
Definition is_linebreak (c : ascii) : bool :=
  let n := code c in
  ((10 <=? n) && (n <=? 13) || (28 <=? n) && (n <=? 30) || (n =? 133))%N.

(** Puts a character in front of the first piece of a split. *)
Definition cons_head (c : ascii) (parts : list str) : list str :=
  match parts with
  | [] => [[c]]
  | p :: ps => (c :: p) :: ps
  end.

(** [s.splitlines()]: ["\r\n"] is one boundary, and a final boundary opens
    no empty line. *)
Fixpoint splitlines (s : str) : list str :=
  match s with
  | [] => []
  | c :: s' =>
      if is_linebreak c then
        [] :: match s' with
              | d :: s'' =>
                  if (code c =? 13)%N && (code d =? 10)%N
                  then splitlines s'' else splitlines s'
              | [] => []
              end
      else cons_head c (splitlines s')
  end.

(** [s.split(sep, 1)] for a separator of one character. *)
Fixpoint split_once (sep : ascii) (s : str) : list str :=
  match s with
  | [] => [[]]
  | c :: s' =>
      if Ascii.eqb c sep then [[]; s'] else cons_head c (split_once sep s')
  end.

(** [s.split(sep)] for a separator of one character. *)
Fixpoint split_char (sep : ascii) (s : str) : list str :=
  match s with
  | [] => [[]]
  | c :: s' =>
      if Ascii.eqb c sep then [] :: split_char sep s'
      else cons_head c (split_char sep s')
  end.

(** [s.split(sep)] for a separator of two characters [c1 c2]: occurrences
    are taken from the left and do not overlap. *)
Fixpoint split_pair (c1 c2 : ascii) (s : str) : list str :=
  match s with
  | [] => [[]]
  | x :: s' =>
      match s' with
      | [] => [[x]]
      | y :: s'' =>
          if Ascii.eqb x c1 && Ascii.eqb y c2
          then [] :: split_pair c1 c2 s''
          else cons_head x (split_pair c1 c2 s')
      end
  end.

(** [s.split()]: the maximal runs of characters that are not white space. *)
Fixpoint split_whitespace (s : str) : list str :=
  match s with
  | [] => []
  | c :: s' =>
      if isspace c then split_whitespace s'
      else match s' with
           | [] => [[c]]
           | d :: _ =>
               if isspace d then [c] :: split_whitespace s'
               else cons_head c (split_whitespace s')
           end
  end.

Fixpoint lstrip (s : str) : str :=
  match s with
  | [] => []
  | c :: s' => if isspace c then lstrip s' else s
  end.

Definition rstrip (s : str) : str := rev (lstrip (rev s)).

(** [s.strip()] *)
Definition strip (s : str) : str := rstrip (lstrip s).

Fixpoint starts_with (p s : str) : bool :=
  match p with
  | [] => true
  | a :: p' =>
      match s with
      | [] => false
      | b :: s' => Ascii.eqb a b && starts_with p' s'
      end
  end.

(** [sub in s] *)
Fixpoint contains (sub s : str) : bool :=
  starts_with sub s ||
  match s with
  | [] => false
  | _ :: s' => contains sub s'
  end.

(** ** Python's [int(s, 16)]

    White space around the literal, an optional sign, an optional [0x]
    prefix (one underscore may follow it), then hexadecimal digits in which
    single underscores may separate digits. *)

Definition hex_digit (c : ascii) : option Z :=
  let n := code c in
  if ((48 <=? n) && (n <=? 57))%N then Some (Z.of_N n - 48)
  else if ((97 <=? n) && (n <=? 102))%N then Some (Z.of_N n - 87)
  else if ((65 <=? n) && (n <=? 70))%N then Some (Z.of_N n - 55)
  else None.

(** The white space [int] skips: the ASCII blanks and, once the string is
    not pure ASCII, the other Unicode spaces. *)
Definition isspace_int (c : ascii) : bool :=
  let n := code c in
  ((9 <=? n) && (n <=? 13) || (n =? 32) || (n =? 133) || (n =? 160))%N.

Fixpoint skip_spaces (s : str) : str :=
  match s with
  | [] => []
  | c :: s' => if isspace_int c then skip_spaces s' else s
  end.

(** Digits and underscores after the first digit; [prev_us] says that the
    previous character was an underscore.  Returns the value and what is left
    of the string. *)
Fixpoint scan_digits (prev_us : bool) (acc : Z) (s : str) : option (Z * str) :=
  match s with
  | [] => if prev_us then None else Some (acc, [])
  | c :: s' =>
      match hex_digit c with
      | Some d => scan_digits false (16 * acc + d) s'
      | None =>
          if Ascii.eqb c "_"
          then (if prev_us then None else scan_digits true acc s')
          else (if prev_us then None else Some (acc, s))
      end
  end.

Definition parse_digits (s : str) : option (Z * str) :=
  match s with
  | [] => None
  | c :: s' =>
      match hex_digit c with
      | Some d => scan_digits false d s'
      | None => None
      end
  end.

Definition skip_sign (s : str) : bool * str :=
  match s with
  | c :: s' =>
      if Ascii.eqb c "+" then (false, s')
      else if Ascii.eqb c "-" then (true, s')
      else (false, s)
  | [] => (false, s)
  end.

Definition skip_prefix (s : str) : str :=
  match s with
  | z :: x :: s' =>
      if Ascii.eqb z "0" && (Ascii.eqb x "x" || Ascii.eqb x "X")
      then match s' with
           | u :: s'' => if Ascii.eqb u "_" then s'' else s'
           | [] => s'
           end
      else s
  | _ => s
  end.

Definition int16 (s : str) : option Z :=
  let (negative, s1) := skip_sign (skip_spaces s) in
  match parse_digits (skip_prefix s1) with
  | None => None
  | Some (v, rest) =>
      match skip_spaces rest with
      | [] => Some (if negative then - v else v)
      | _ :: _ => None
      end
  end.

(** ** Exceptions *)

Inductive exn : Type :=
| ValueError_literal (token : str)   (* invalid literal for int() with base 16 *)
| ValueError_unpack (count : nat)    (* wrong number of values to unpack *)
| FetchError (url : str).            (* whatever urlopen or decode raises *)

Definition result (A : Type) : Type := (exn + A)%type.

Definition ret {A : Type} (a : A) : result A := inr a.
Definition raise {A : Type} (e : exn) : result A := inl e.

Definition bind {A B : Type} (m : result A) (k : A -> result B) : result B :=
  match m with
  | inl e => inl e
  | inr a => k a
  end.

Notation "x <- m ;; k" := (bind m (fun x => k))
  (at level 61, m at next level, right associativity).

Definition raises {A : Type} (m : result A) : Prop := exists e, m = inl e.

Definition py_int16 (s : str) : result Z :=
  match int16 s with
  | Some v => ret v
  | None => raise (ValueError_literal s)
  end.

(** ** The record parser (lines 33-38, and again 53-58)

    [None] stands for [continue]. *)

Definition split_fields (line : str) : option (list str) :=
  let line := strip (hd [] (split_once "#" line)) in
  match line with
  | [] => None
  | _ :: _ =>
      let fields := map strip (split_char ";" line) in
      if (List.length fields <? 2)%nat then None else Some fields
  end.

(** The two [for line in text.splitlines()] loops (lines 32-46 and 52-69)
    differ only in what a line yields: [step] says what the body appends for
    one line, [None] for [continue]; an exception leaves the loop. *)

Definition append_opt {A : Type} (l : list A) (o : option A) : list A :=
  match o with
  | Some a => l ++ [a]
  | None => l
  end.

Fixpoint collect {A : Type} (step : str -> result (option A)) (acc : list A)
  (lines : list str) : result (list A) :=
  match lines with
  | [] => ret acc
  | line :: lines' =>
      r <- step line ;;
      collect step (append_opt acc r) lines'
  end.

(** ** parse_east_asian_width (lines 30-47) *)

(** Lines 42-45: the two strings handed to [int]. *)
Definition range_tokens (code_range : str) : result (str * str) :=
  if contains (lit "..") code_range then
    match split_pair "." "." code_range with
    | [l; h] => ret (l, h)
    | parts => raise (ValueError_unpack (List.length parts))
    end
  else ret (code_range, code_range).

(** Lines 39-46 on the fields of one record: the range it appends, if any. *)
Definition eaw_record (fields : list str) : result (option range) :=
  match fields with
  | code_range :: prop :: _ =>
      if negb (str_eqb prop (lit "W") || str_eqb prop (lit "F")) then ret None
      else
        tokens <- range_tokens code_range ;;
        l <- py_int16 (fst tokens) ;;
        h <- py_int16 (snd tokens) ;;
        ret (Some (l, h))
  | _ => ret None
  end.

Definition eaw_line (line : str) : result (option range) :=
  match split_fields line with
  | None => ret None
  | Some fields => eaw_record fields
  end.

Definition parse_east_asian_width (text : str) : result (list range) :=
  ranges <- collect eaw_line [] (splitlines text) ;;
  ret (merge_ranges ranges).

(** ** parse_emoji_vs16_bases (lines 50-84) *)

Definition VS16 : Z := 0xFE0F.

(** Lines 59-69 on the fields of one record: the base it appends, if any. *)
Definition emoji_record (fields : list str) : result (option Z) :=
  match fields with
  | seq :: style :: _ =>
      if negb (str_eqb style (lit "emoji style")) then ret None
      else
        match split_whitespace seq with
        | [p0; p1] =>
            base <- py_int16 p0 ;;
            vs <- py_int16 p1 ;;
            if negb (vs =? VS16) then ret None else ret (Some base)
        | _ => ret None
        end
  | _ => ret None
  end.

Definition emoji_line (line : str) : result (option Z) :=
  match split_fields line with
  | None => ret None
  | Some fields => emoji_record fields
  end.

(** Lines 72-81.  [start] and [prev] are assigned together, so the state is
    [None] or the pair [(start, prev)]. *)
Fixpoint collapse_loop (ranges : list range) (state : option (Z * Z))
  (bases : list Z) : list range * option (Z * Z) :=
  match bases with
  | [] => (ranges, state)
  | b :: bases' =>
      match state with
      | None => collapse_loop ranges (Some (b, b)) bases'
      | Some (start, prev) =>
          if b =? prev + 1
          then collapse_loop ranges (Some (start, b)) bases'
          else collapse_loop (ranges ++ [(start, prev)]) (Some (b, b)) bases'
      end
  end.

(** Lines 82-83: the open range, if any, is appended. *)
Definition flush (st : list range * option (Z * Z)) : list range :=
  match st with
  | (ranges, None) => ranges
  | (ranges, Some (start, prev)) => ranges ++ [(start, prev)]
  end.

(** Lines 70-84: [sorted(set(bases))], the scan and the final flush. *)
Definition collapse (bases : list Z) : list range :=
  let bases := sorted Z.ltb (nodup Z.eq_dec bases) in
  flush (collapse_loop [] None bases).

Definition parse_emoji_vs16_bases (text : str) : result (list range) :=
  bases <- collect emoji_line [] (splitlines text) ;;
  ret (collapse bases).

(** The scan without the accumulator, for induction. *)
Fixpoint collapse_from (start prev : Z) (bases : list Z) : list range :=
  match bases with
  | [] => [(start, prev)]
  | b :: bases' =>
      if b =? prev + 1 then collapse_from start b bases'
      else (start, prev) :: collapse_from b b bases'
  end.

(** The code points of a range, in order. *)
Definition expand (r : range) : list Z :=
  map (fun i => lo r + Z.of_nat i) (seq 0 (Z.to_nat (hi r - lo r + 1))).

(** ** main (lines 87-108) *)

Definition EAST_ASIAN_WIDTH_URL : str :=
  lit "https://www.unicode.org/Public/UCD/latest/ucd/EastAsianWidth.txt".

Definition EMOJI_VARIATION_SEQUENCES_URL : str :=
  lit "https://www.unicode.org/Public/UCD/latest/ucd/emoji/emoji-variation-sequences.txt".

Definition newline : str := [ascii_of_nat 10].

Definition upper (c : ascii) : ascii :=
  let n := code c in
  if ((97 <=? n) && (n <=? 122))%N then ascii_of_N (n - 32) else c.

(** The format [04X]: upper-case hexadecimal, padded with zeros to four
    characters, the sign of a negative number counted in the four. *)
Definition format_04X (n : Z) : str :=
  let digits :=
    map upper
      (lit (HexadecimalString.NilZero.string_of_uint (N.to_hex_uint (Z.abs_N n)))) in
  let sign := if n <? 0 then lit "-" else [] in
  sign ++ repeat "0"%char (4 - List.length sign - List.length digits) ++ digits.

Definition str_of_len {A : Type} (l : list A) : str :=
  lit (DecimalString.NilZero.string_of_uint (Nat.to_uint (List.length l))).

Definition range_line (r : range) : str :=
  lit "        Range(lo: 0x" ++ format_04X (lo r) ++ lit ", hi: 0x"
    ++ format_04X (hi r) ++ lit ")," ++ newline.

(** Lines 91-103, joined as line 107 does. *)
Definition render (eaw_ranges evs_ranges : list range) : str :=
  List.concat
    ([lit "// This file is generated from Unicode data files. Do not edit by hand." ++ newline;
      lit "struct UnicodeWidthData {" ++ newline;
      lit "    typealias Range = UnicodeUtil.LH" ++ newline ++ newline;
      lit "    static let eastAsianWide: [Range] = [" ++ newline]
     ++ map range_line eaw_ranges
     ++ [lit "    ]" ++ newline ++ newline;
         lit "    static let emojiVs16Base: [Range] = [" ++ newline]
     ++ map range_line evs_ranges
     ++ [lit "    ]" ++ newline;
         lit "}" ++ newline]).

(** What a run can change: the generated Swift file ([None] while it does
    not exist) and the standard output. *)
Record world : Type := mkWorld {
  artifact : option str;
  stdout : list str
}.

(** [fetch] is the network as the run sees it; [out_path] is what
    [Path(__file__)] resolves to.  An uncaught exception leaves the
    interpreter with status 1. *)
Definition main (fetch : str -> result str) (out_path : str) (w : world)
  : world * result unit :=
  match (text <- fetch EAST_ASIAN_WIDTH_URL ;; parse_east_asian_width text) with
  | inl e => (w, inl e)
  | inr eaw_ranges =>
      match (text <- fetch EMOJI_VARIATION_SEQUENCES_URL ;;
             parse_emoji_vs16_bases text) with
      | inl e => (w, inl e)
      | inr evs_ranges =>
          ({| artifact := Some (render eaw_ranges evs_ranges);
              stdout := stdout w ++
                [lit "Wrote " ++ out_path ++ lit " with "
                   ++ str_of_len eaw_ranges ++ lit " EAW ranges and "
                   ++ str_of_len evs_ranges ++ lit " VS16 ranges"] |},
           inr tt)
      end
  end.

Definition exit_status (r : result unit) : Z :=
  match r with
  | inl _ => 1
  | inr _ => 0
  end.

(** ** Vocabulary of the statements about tokens *)

Definition no_dot (s : str) : Prop := Forall (fun c => c <> "."%char) s.

(** A range token that [int] reads: one literal, or two literals around
    the separator. *)
Inductive token_reads : str -> range -> Prop :=
| reads_point (tok : str) (v : Z) :
    int16 tok = Some v -> token_reads tok (v, v)
| reads_span (a b : str) (x y : Z) :
    int16 a = Some x -> int16 b = Some y ->
    token_reads (a ++ lit ".." ++ b) (x, y).

(** What one line adds to the list a loop builds, when [step] returns. *)
Definition yields {A : Type} (step : str -> result (option A)) (line : str)
  : list A :=
  match step line with
  | inr (Some a) => [a]
  | _ => []
  end.

Definition returns {A : Type} (m : result A) : Prop := exists a, m = ret a.

(** The digits [format_04X] writes for a hexadecimal numeral. *)
Definition hex_chars (d : Hexadecimal.uint) : str :=
  map upper (lit (HexadecimalString.NilEmpty.string_of_uint d)).

(** ** Facts about [sorted] *)

Section SortedFacts.
Variable A : Type.
Variable lt : A -> A -> bool.
Variable le : A -> A -> Prop.
Hypothesis lt_false_le : forall x y, lt y x = false -> le x y.
Hypothesis lt_true_le : forall x y, lt y x = true -> le y x.
Hypothesis le_trans : forall x y z, le x y -> le y z -> le x z.
Hypothesis le_antisym : forall x y, le x y -> le y x -> x = y.

Lemma insert_perm (x : A) (l : list A) : Permutation (insert lt x l) (x :: l).
Proof.
  induction l as [|y l IH]; simpl; [reflexivity|].
  destruct (lt y x); [|reflexivity].
  rewrite IH. apply perm_swap.
Qed.

Lemma sorted_perm (l : list A) : Permutation (sorted lt l) l.
Proof.
  induction l as [|x l IH]; simpl; [reflexivity|].
  rewrite insert_perm. now apply perm_skip.
Qed.

Lemma insert_sorted (x : A) (l : list A) :
  StronglySorted le l -> StronglySorted le (insert lt x l).
Proof.
  induction 1 as [|y l Hs IH Hall]; simpl.
  - constructor; constructor.
  - destruct (lt y x) eqn:E.
    + constructor; [exact IH|].
      eapply Permutation_Forall; [symmetry; apply insert_perm|].
      constructor; [now apply lt_true_le | exact Hall].
    + constructor; [now constructor|].
      assert (Hxy : le x y) by now apply lt_false_le.
      constructor; [exact Hxy|].
      eapply Forall_impl; [|exact Hall]. intros z Hz. eauto.
Qed.

Lemma sorted_sorted (l : list A) : StronglySorted le (sorted lt l).
Proof.
  induction l as [|x l IH]; simpl; [constructor | now apply insert_sorted].
Qed.

Lemma sorted_perm_unique (l1 l2 : list A) :
  StronglySorted le l1 -> StronglySorted le l2 -> Permutation l1 l2 -> l1 = l2.
Proof.
  intros H1. revert l2.
  induction H1 as [|a t1 Hs1 IH Ha]; intros l2 H2 HP.
  - now apply Permutation_nil in HP.
  - destruct H2 as [|b t2 Hs2 Hb].
    + symmetry in HP. now apply Permutation_nil in HP.
    + assert (Hab : a = b).
      { assert (Ia : In a (b :: t2))
          by (eapply Permutation_in; [exact HP | now left]).
        assert (Ib : In b (a :: t1))
          by (eapply Permutation_in; [symmetry; exact HP | now left]).
        destruct Ia as [->|Ia]; [reflexivity|].
        destruct Ib as [->|Ib]; [reflexivity|].
        rewrite Forall_forall in Ha, Hb.
        apply le_antisym; auto. }
      subst b. f_equal. apply IH; [exact Hs2|].
      now apply Permutation_cons_inv in HP.
Qed.

(** Whatever sorts the list returns what the model returns. *)
Lemma sorted_unique (l l' : list A) :
  Permutation l' l -> StronglySorted le l' -> l' = sorted lt l.
Proof.
  intros HP Hs. apply sorted_perm_unique; [exact Hs | apply sorted_sorted |].
  rewrite HP. symmetry. apply sorted_perm.
Qed.

Lemma sorted_permutation_invariant (l l' : list A) :
  Permutation l l' -> sorted lt l = sorted lt l'.
Proof.
  intros HP. apply sorted_unique; [|apply sorted_sorted].
  rewrite sorted_perm. exact HP.
Qed.
End SortedFacts.

Lemma tuple_lt_false_le (r s : range) : tuple_lt s r = false -> tuple_le r s.
Proof.
  unfold tuple_lt, tuple_le. intros H.
  apply orb_false_iff in H. destruct H as [H1 H2].
  apply Z.ltb_ge in H1.
  apply andb_false_iff in H2. destruct H2 as [H2|H2].
  - apply Z.eqb_neq in H2. lia.
  - apply Z.ltb_ge in H2. lia.
Qed.

Lemma tuple_lt_true_le (r s : range) : tuple_lt s r = true -> tuple_le s r.
Proof.
  unfold tuple_lt, tuple_le. intros H.
  apply orb_true_iff in H. destruct H as [H|H].
  - apply Z.ltb_lt in H. lia.
  - apply andb_true_iff in H. destruct H as [H1 H2].
    apply Z.eqb_eq in H1. apply Z.ltb_lt in H2. lia.
Qed.

Lemma tuple_le_trans (r s t : range) : tuple_le r s -> tuple_le s t -> tuple_le r t.
Proof. unfold tuple_le. lia. Qed.

Lemma tuple_le_antisym (r s : range) : tuple_le r s -> tuple_le s r -> r = s.
Proof.
  destruct r, s. unfold tuple_le, lo, hi. simpl. intros H1 H2.
  f_equal; lia.
Qed.

Lemma sorted_tuples_perm (l : list range) : Permutation (sorted tuple_lt l) l.
Proof. apply sorted_perm. Qed.

Lemma sorted_tuples_sorted (l : list range) :
  StronglySorted tuple_le (sorted tuple_lt l).
Proof.
  apply sorted_sorted.
  - apply tuple_lt_false_le.
  - apply tuple_lt_true_le.
  - apply tuple_le_trans.
Qed.

(** ** The merge loop *)

Lemma covers_iff (r : range) (x : Z) : covers r x = true <-> lo r <= x <= hi r.
Proof. unfold covers. rewrite andb_true_iff, !Z.leb_le. tauto. Qed.

Lemma covered_iff (rs : list range) (x : Z) :
  covered rs x = true <-> exists r, In r rs /\ covers r x = true.
Proof. apply existsb_exists. Qed.

Lemma covered_perm (l l' : list range) (x : Z) :
  Permutation l l' -> covered l x = covered l' x.
Proof.
  intros HP. apply eq_iff_eq_true. rewrite !covered_iff.
  split; intros [r [Hin Hc]]; exists r; split; auto.
  - eapply Permutation_in; eauto.
  - eapply Permutation_in; [symmetry|]; eauto.
Qed.

Lemma StronglySorted_impl (A : Type) (P Q : A -> A -> Prop) (l : list A) :
  (forall a b, P a b -> Q a b) -> StronglySorted P l -> StronglySorted Q l.
Proof.
  intros HPQ. induction 1 as [|a l Hs IH Ha]; constructor; auto.
  eapply Forall_impl; [|exact Ha]. auto.
Qed.

Lemma merge_loop_from (rest : list range) :
  forall closed cur, merge_loop closed cur rest = closed ++ merge_from cur rest.
Proof.
  induction rest as [|[l h] rest IH]; intros closed cur; simpl; [reflexivity|].
  destruct (l <=? hi cur + 1).
  - apply IH.
  - rewrite IH, <- app_assoc. reflexivity.
Qed.

Lemma merge_ranges_eq (ranges : list range) :
  merge_ranges ranges =
  match sorted tuple_lt ranges with
  | [] => []
  | first :: rest => merge_from first rest
  end.
Proof.
  destruct ranges as [|r rs]; [reflexivity|].
  unfold merge_ranges. destruct (sorted tuple_lt (r :: rs)); [reflexivity|].
  apply merge_loop_from.
Qed.

Lemma covers_extend (cur : range) (l h x : Z) :
  lo cur <= l -> l <= hi cur + 1 ->
  covers (lo cur, Z.max (hi cur) h) x = covers cur x || covers (l, h) x.
Proof.
  intros H1 H2. apply eq_iff_eq_true.
  rewrite orb_true_iff, !covers_iff. unfold lo, hi in *. simpl. lia.
Qed.

Lemma merge_from_head (rest : list range) :
  forall cur, exists h tl, merge_from cur rest = (lo cur, h) :: tl.
Proof.
  induction rest as [|[l h] rest IH]; intros [a b]; simpl.
  - exists b, []. reflexivity.
  - unfold lo, hi; simpl. destruct (l <=? b + 1).
    + apply (IH (a, Z.max b h)).
    + eexists; eexists; reflexivity.
Qed.

(** The loop on a list in ascending order of [lo]: the result has gaps
    between its ranges and covers what went in. *)
Lemma merge_from_spec (rest : list range) :
  forall cur,
    valid cur -> Forall valid rest ->
    StronglySorted (fun r s => lo r <= lo s) (cur :: rest) ->
    gap_chain (merge_from cur rest) /\
    forall x, covered (merge_from cur rest) x = covers cur x || covered rest x.
Proof.
  induction rest as [|[l h] rest IH]; intros cur Hv Hall Hs.
  - simpl. split; [tauto|]. intros x. reflexivity.
  - inversion Hall as [|? ? Hlh Hrest]; subst.
    inversion Hs as [|? ? Hs' Hcur]; subst.
    inversion Hcur as [|? ? Hcl Hcrest]; subst.
    inversion Hs' as [|? ? Hs'' Hl]; subst.
    unfold valid, lo, hi in Hlh, Hcl; simpl in Hlh, Hcl.
    simpl. destruct (l <=? hi cur + 1) eqn:E.
    + apply Z.leb_le in E.
      destruct (IH (lo cur, Z.max (hi cur) h)) as [Hg Hc].
      * unfold valid, lo, hi in *. simpl. lia.
      * exact Hrest.
      * constructor; [exact Hs''|exact Hcrest].
      * split; [exact Hg|]. intros x. rewrite Hc.
        rewrite (@covers_extend cur l h x); auto.
        now rewrite orb_assoc.
    + apply Z.leb_gt in E.
      destruct (IH (l, h)) as [Hg Hc]; auto.
      destruct (merge_from_head rest (l, h)) as [h' [tl Heq]].
      split.
      * rewrite Heq in *. simpl. simpl in Hg.
        split; [exact Hv|]. split; [unfold lo, hi in *; simpl in *; lia | exact Hg].
      * intros x. simpl. now rewrite Hc.
Qed.

(** ** What a gap chain gives *)

Lemma gap_chain_tail (r : range) (rs : list range) :
  gap_chain (r :: rs) -> gap_chain rs.
Proof. simpl. tauto. Qed.

Lemma gap_chain_beyond (rs : list range) :
  forall r, gap_chain (r :: rs) -> Forall (fun s => hi r + 1 < lo s) rs.
Proof.
  induction rs as [|s rs IH]; intros r Hg; constructor.
  - simpl in Hg. tauto.
  - assert (Hrs : hi r + 1 < lo s) by (simpl in Hg; tauto).
    assert (Hvs : valid s) by (simpl in Hg; tauto).
    eapply Forall_impl; [|apply (IH s); eapply gap_chain_tail; eauto].
    unfold valid in Hvs. simpl. intros t Ht. lia.
Qed.

Lemma gap_chain_sorted (rs : list range) :
  gap_chain rs -> StronglySorted (fun r s => hi r + 1 < lo s) rs.
Proof.
  induction rs as [|r rs IH]; intros Hg; constructor.
  - apply IH. eapply gap_chain_tail; eauto.
  - now apply gap_chain_beyond.
Qed.

Lemma gap_chain_valid (rs : list range) : gap_chain rs -> Forall valid rs.
Proof.
  induction rs as [|r rs IH]; intros Hg; constructor.
  - simpl in Hg. tauto.
  - apply IH. eapply gap_chain_tail; eauto.
Qed.

Lemma gap_chain_ascending (rs : list range) : gap_chain rs -> ascending_lo rs.
Proof.
  intros Hg. pose proof (gap_chain_valid rs Hg) as Hv.
  apply gap_chain_sorted in Hg. unfold ascending_lo.
  induction Hg as [|r rs Hs IH Hr]; constructor.
  - apply IH. now inversion Hv.
  - inversion Hv as [|? ? Hvr _]; subst. unfold valid in Hvr.
    eapply Forall_impl; [|exact Hr]. simpl. intros s Hsr. lia.
Qed.

Lemma gap_chain_disjoint (rs : list range) : gap_chain rs -> pairwise_disjoint rs.
Proof.
  intros Hg. apply gap_chain_sorted in Hg. unfold pairwise_disjoint.
  induction Hg as [|r rs Hs IH Hr]; constructor; [|exact IH].
  eapply Forall_impl; [|exact Hr]. simpl.
  intros s Hsr x Hx Hy. apply covers_iff in Hx, Hy. lia.
Qed.

Lemma gap_chain_not_adjacent (rs : list range) :
  gap_chain rs -> neighbours not_adjacent rs.
Proof.
  induction rs as [|r rs IH]; simpl; [tauto|].
  intros [_ [Hn Hg]]. split; [|auto].
  destruct rs; [exact I|]. unfold not_adjacent. lia.
Qed.

Lemma gap_chain_tuple_sorted (rs : list range) :
  gap_chain rs -> StronglySorted tuple_le rs.
Proof.
  intros Hg. pose proof (gap_chain_ascending rs Hg) as Ha.
  eapply StronglySorted_impl; [|exact Ha].
  intros a b Hab. left. exact Hab.
Qed.

(** Ranges that already are in order, apart and not adjacent form a gap
    chain. *)
Lemma merged_shape_gap_chain (rs : list range) :
  Forall valid rs ->
  Sorted (fun r s => lo r <= lo s) rs ->
  pairwise_disjoint rs ->
  neighbours not_adjacent rs ->
  gap_chain rs.
Proof.
  induction rs as [|r rs IH]; intros Hv Hs Hd Hn; simpl; [exact I|].
  inversion Hv as [|? ? Hvr Hvrs]; subst.
  inversion Hs as [|? ? Hs' Hhd]; subst.
  inversion Hd as [|? ? Hdr Hdrs]; subst.
  simpl in Hn. destruct Hn as [Hn Hn'].
  split; [exact Hvr|]. split; [|apply IH; auto].
  destruct rs as [|s rs]; [exact I|].
  inversion Hhd as [|? ? Hrs]; subst.
  inversion Hdr as [|? ? Hdrs' _]; subst.
  inversion Hvrs as [|? ? Hvs _]; subst.
  unfold not_adjacent in Hn. unfold valid in Hvr, Hvs.
  assert (Hlt : hi r < lo s).
  { apply Z.nle_gt. intros Hle.
    apply (Hdrs' (lo s)); apply covers_iff; lia. }
  lia.
Qed.

Lemma merge_from_gap_chain (rest : list range) :
  forall cur, gap_chain (cur :: rest) -> merge_from cur rest = cur :: rest.
Proof.
  induction rest as [|[l h] rest IH]; intros cur Hg; simpl; [reflexivity|].
  assert (Hgap : hi cur + 1 < l) by (simpl in Hg; unfold lo in Hg; simpl in Hg; tauto).
  destruct (l <=? hi cur + 1) eqn:E.
  - apply Z.leb_le in E. lia.
  - f_equal. apply IH. eapply gap_chain_tail; eauto.
Qed.

Lemma merge_ranges_gap_chain_fixed (rs : list range) :
  gap_chain rs -> merge_ranges rs = rs.
Proof.
  intros Hg. rewrite merge_ranges_eq.
  assert (Hs : sorted tuple_lt rs = rs).
  { symmetry. apply sorted_unique with (le := tuple_le).
    - apply tuple_lt_false_le.
    - apply tuple_lt_true_le.
    - apply tuple_le_trans.
    - apply tuple_le_antisym.
    - reflexivity.
    - now apply gap_chain_tuple_sorted. }
  rewrite Hs. destruct rs as [|r rs]; [reflexivity|].
  now apply merge_from_gap_chain.
Qed.

Lemma merge_ranges_spec (ranges : list range) :
  Forall valid ranges ->
  gap_chain (merge_ranges ranges) /\
  forall x, covered (merge_ranges ranges) x = covered ranges x.
Proof.
  intros Hv. rewrite merge_ranges_eq.
  pose proof (sorted_tuples_perm ranges) as HP.
  pose proof (sorted_tuples_sorted ranges) as HS.
  assert (Hv' : Forall valid (sorted tuple_lt ranges))
    by (eapply Permutation_Forall; [symmetry; exact HP | exact Hv]).
  destruct (sorted tuple_lt ranges) as [|first rest] eqn:E.
  - split; [exact I|]. intros x. symmetry.
    now rewrite <- (covered_perm x HP).
  - inversion Hv' as [|? ? Hf Hr]; subst.
    destruct (@merge_from_spec rest first Hf Hr) as [Hg Hc].
    + eapply StronglySorted_impl; [|exact HS].
      unfold tuple_le. intros a b. lia.
    + split; [exact Hg|]. intros x. rewrite Hc.
      now rewrite <- (covered_perm x HP).
Qed.

(** The code points covered survive the loop whatever the ranges are, also
    when some have [lo > hi]. *)
Lemma merge_from_covered (rest : list range) :
  forall cur,
    StronglySorted (fun r s => lo r <= lo s) (cur :: rest) ->
    forall x, covered (merge_from cur rest) x = covers cur x || covered rest x.
Proof.
  induction rest as [|[l h] rest IH]; intros cur Hs x; [reflexivity|].
  inversion Hs as [|? ? Hs' Hcur]; subst.
  inversion Hcur as [|? ? Hcl Hcrest]; subst.
  inversion Hs' as [|? ? Hs'' Hl]; subst.
  unfold lo in Hcl at 2; simpl in Hcl.
  simpl. destruct (l <=? hi cur + 1) eqn:E.
  - apply Z.leb_le in E. rewrite IH.
    + rewrite (@covers_extend cur l h x); auto. now rewrite orb_assoc.
    + constructor; [exact Hs''|exact Hcrest].
  - simpl. now rewrite IH.
Qed.

Lemma merge_ranges_covered (ranges : list range) (x : Z) :
  covered (merge_ranges ranges) x = covered ranges x.
Proof.
  rewrite merge_ranges_eq.
  pose proof (sorted_tuples_perm ranges) as HP.
  pose proof (sorted_tuples_sorted ranges) as HS.
  rewrite <- (covered_perm x HP).
  destruct (sorted tuple_lt ranges) as [|first rest]; [reflexivity|].
  apply merge_from_covered.
  eapply StronglySorted_impl; [|exact HS].
  unfold tuple_le. intros a b. lia.
Qed.

(** Merging twice is merging once. *)
Lemma merge_ranges_twice (ranges : list range) :
  Forall valid ranges -> merge_ranges (merge_ranges ranges) = merge_ranges ranges.
Proof.
  intros Hv. apply merge_ranges_gap_chain_fixed. now apply merge_ranges_spec.
Qed.

(** C1. For ranges with [lo <= hi], [merge_ranges] returns ranges in strictly
    ascending order of [lo], pairwise disjoint, with no neighbours such that
    [prev.hi + 1 = next.lo], each with [lo <= hi], and covering exactly the
    code points the input covers. *)
Theorem merge_ranges_postconditions (ranges : list range) :
  Forall valid ranges ->
  ascending_lo (merge_ranges ranges) /\
  pairwise_disjoint (merge_ranges ranges) /\
  neighbours not_adjacent (merge_ranges ranges) /\
  Forall valid (merge_ranges ranges) /\
  forall x, covered (merge_ranges ranges) x = covered ranges x.
Proof.
  intros Hv. destruct (merge_ranges_spec Hv) as [Hg Hc].
  repeat split.
  - now apply gap_chain_ascending.
  - now apply gap_chain_disjoint.
  - now apply gap_chain_not_adjacent.
  - now apply gap_chain_valid.
  - exact Hc.
Qed.

Lemma merge_ranges_postconditions_witness :
  let input := [(5, 7); (1, 2); (3, 3); (10, 12); (6, 20); (30, 31)] in
  Forall valid input /\
  merge_ranges input = [(1, 3); (5, 20); (30, 31)] /\
  ascending_lo (merge_ranges input) /\
  forall x, covered (merge_ranges input) x = covered input x.
Proof.
  intros input.
  assert (Hv : Forall valid input)
    by (repeat constructor; unfold valid, lo, hi; simpl; lia).
  split; [exact Hv|]. split; [reflexivity|].
  pose proof (@merge_ranges_postconditions input Hv) as H.
  split; [exact (proj1 H) | exact (proj2 (proj2 (proj2 (proj2 H))))].
Defined.

(** C5. A list of ranges with [lo <= hi] that is in ascending order of [lo],
    pairwise disjoint and without adjacent neighbours is returned unchanged
    by [merge_ranges]. *)
Theorem merge_ranges_idempotent (rs : list range) :
  Forall valid rs ->
  Sorted (fun r s => lo r <= lo s) rs ->
  pairwise_disjoint rs ->
  neighbours not_adjacent rs ->
  merge_ranges rs = rs.
Proof.
  intros Hv Hs Hd Hn. apply merge_ranges_gap_chain_fixed.
  now apply merged_shape_gap_chain.
Qed.

(** C6. [merge_ranges] returns the same list on every permutation of its
    input. *)
Theorem merge_ranges_order_invariant (ranges ranges' : list range) :
  Permutation ranges ranges' -> merge_ranges ranges' = merge_ranges ranges.
Proof.
  intros HP. rewrite !merge_ranges_eq.
  assert (Hs : sorted tuple_lt ranges = sorted tuple_lt ranges').
  { apply sorted_permutation_invariant with (le := tuple_le).
    - apply tuple_lt_false_le.
    - apply tuple_lt_true_le.
    - apply tuple_le_trans.
    - apply tuple_le_antisym.
    - exact HP. }
  now rewrite Hs.
Qed.

Lemma merge_ranges_idempotent_witness :
  let rs := [(1, 3); (5, 20); (30, 31)] in
  Forall valid rs /\ pairwise_disjoint rs /\ merge_ranges rs = rs.
Proof.
  intros rs.
  assert (Hv : Forall valid rs)
    by (repeat constructor; unfold valid, lo, hi; simpl; lia).
  assert (Hd : pairwise_disjoint rs).
  { repeat constructor; intros x Hx Hy; apply covers_iff in Hx, Hy;
      unfold lo, hi in *; simpl in *; lia. }
  split; [exact Hv|]. split; [exact Hd|].
  apply (@merge_ranges_idempotent rs Hv).
  - repeat constructor; unfold lo; simpl; lia.
  - exact Hd.
  - simpl. unfold not_adjacent, lo, hi. simpl. repeat split; lia.
Defined.

Lemma merge_ranges_order_invariant_witness :
  Permutation [(5, 7); (1, 2); (6, 9)] [(1, 2); (5, 7); (6, 9)] /\
  merge_ranges [(1, 2); (5, 7); (6, 9)] = merge_ranges [(5, 7); (1, 2); (6, 9)].
Proof.
  split; [apply perm_swap|].
  apply merge_ranges_order_invariant. apply perm_swap.
Defined.

(** ** The contiguity scan *)

Lemma collapse_loop_from (bases : list Z) :
  forall ranges start prev,
    flush (collapse_loop ranges (Some (start, prev)) bases) =
    ranges ++ collapse_from start prev bases.
Proof.
  induction bases as [|b bases IH]; intros ranges start prev; simpl; [reflexivity|].
  destruct (b =? prev + 1).
  - apply IH.
  - rewrite IH, <- app_assoc. reflexivity.
Qed.

Lemma collapse_eq (bases : list Z) :
  collapse bases =
  match sorted Z.ltb (nodup Z.eq_dec bases) with
  | [] => []
  | b :: bs => collapse_from b b bs
  end.
Proof.
  unfold collapse. destruct (sorted Z.ltb (nodup Z.eq_dec bases)) as [|b bs].
  - reflexivity.
  - simpl. apply (collapse_loop_from bs [] b b).
Qed.

Lemma sorted_Z_perm (l : list Z) : Permutation (sorted Z.ltb l) l.
Proof. apply sorted_perm. Qed.

Lemma sorted_Z_sorted (l : list Z) : StronglySorted Z.le (sorted Z.ltb l).
Proof.
  apply sorted_sorted.
  - intros x y H. apply Z.ltb_ge in H. exact H.
  - intros x y H. apply Z.ltb_lt in H. lia.
  - intros x y z. lia.
Qed.

Lemma sorted_nodup_strict (l : list Z) :
  StronglySorted Z.le l -> NoDup l -> StronglySorted Z.lt l.
Proof.
  induction 1 as [|a l Hs IH Ha]; intros Hnd; constructor;
    inversion Hnd as [|? ? Hnotin Hnd']; subst.
  - now apply IH.
  - rewrite Forall_forall in *. intros x Hx.
    assert (a <> x) by (intros ->; contradiction).
    specialize (Ha x Hx). lia.
Qed.

Lemma sorted_set_strict (bases : list Z) :
  StronglySorted Z.lt (sorted Z.ltb (nodup Z.eq_dec bases)).
Proof.
  apply sorted_nodup_strict; [apply sorted_Z_sorted|].
  eapply Permutation_NoDup; [symmetry; apply sorted_Z_perm | apply NoDup_nodup].
Qed.

Lemma sorted_set_In (bases : list Z) (x : Z) :
  In x (sorted Z.ltb (nodup Z.eq_dec bases)) <-> In x bases.
Proof.
  rewrite <- (nodup_In Z.eq_dec bases x). split; intros H.
  - eapply Permutation_in; [apply sorted_Z_perm | exact H].
  - eapply Permutation_in; [symmetry; apply sorted_Z_perm | exact H].
Qed.

Lemma expand_In (r : range) (x : Z) : In x (expand r) <-> lo r <= x <= hi r.
Proof.
  unfold expand. rewrite in_map_iff. split.
  - intros [i [Hi Hin]]. apply in_seq in Hin. lia.
  - intros H. exists (Z.to_nat (x - lo r)). split; [lia|].
    apply in_seq. lia.
Qed.

Lemma expand_point (b : Z) : expand (b, b) = [b].
Proof.
  unfold expand, lo, hi. simpl. replace (b - b + 1) with 1 by lia.
  simpl. f_equal. lia.
Qed.

Lemma expand_snoc (start prev : Z) :
  start <= prev -> expand (start, prev + 1) = expand (start, prev) ++ [prev + 1].
Proof.
  intros H. unfold expand, lo, hi. simpl.
  replace (Z.to_nat (prev + 1 - start + 1)) with (S (Z.to_nat (prev - start + 1))) by lia.
  rewrite seq_S, map_app. simpl. do 2 f_equal. lia.
Qed.

Lemma flat_expand_In (rs : list range) (x : Z) :
  In x (flat_map expand rs) <-> covered rs x = true.
Proof.
  rewrite in_flat_map, covered_iff.
  split; intros [r [Hin H]]; exists r; split; auto.
  - apply covers_iff. now apply expand_In.
  - apply expand_In. now apply covers_iff.
Qed.

Lemma collapse_from_head (bases : list Z) :
  forall start prev, exists h tl, collapse_from start prev bases = (start, h) :: tl.
Proof.
  induction bases as [|b bases IH]; intros start prev; simpl.
  - eexists; eexists; reflexivity.
  - destruct (b =? prev + 1); [apply IH | eexists; eexists; reflexivity].
Qed.

(** The scan over strictly ascending scalars: the ranges have gaps between
    them and expand to the scalars scanned. *)
Lemma collapse_from_spec (bases : list Z) :
  forall start prev,
    start <= prev -> StronglySorted Z.lt (prev :: bases) ->
    gap_chain (collapse_from start prev bases) /\
    flat_map expand (collapse_from start prev bases) = expand (start, prev) ++ bases.
Proof.
  induction bases as [|b bases IH]; intros start prev Hle Hs.
  - simpl. split; [unfold valid; simpl; tauto|]. reflexivity.
  - inversion Hs as [|? ? Hs' Hp]; subst.
    inversion Hp as [|? ? Hpb Hpbs]; subst.
    inversion Hs' as [|? ? Hs'' Hb]; subst.
    simpl. destruct (b =? prev + 1) eqn:E.
    + apply Z.eqb_eq in E. subst b.
      destruct (IH start (prev + 1)) as [Hg Hx]; [lia | exact Hs' |].
      split; [exact Hg|]. rewrite Hx, expand_snoc by exact Hle.
      rewrite <- app_assoc. reflexivity.
    + apply Z.eqb_neq in E.
      destruct (IH b b) as [Hg Hx]; [lia | exact Hs' |].
      destruct (collapse_from_head bases b b) as [h [tl Heq]].
      split.
      * rewrite Heq in *. simpl. simpl in Hg.
        split; [exact Hle|]. split; [unfold lo, hi; simpl; lia | exact Hg].
      * simpl. rewrite Hx, expand_point. reflexivity.
Qed.

Lemma collapse_spec (bases : list Z) :
  gap_chain (collapse bases) /\
  flat_map expand (collapse bases) = sorted Z.ltb (nodup Z.eq_dec bases).
Proof.
  rewrite collapse_eq. pose proof (sorted_set_strict bases) as Hs.
  destruct (sorted Z.ltb (nodup Z.eq_dec bases)) as [|b bs].
  - split; [exact I | reflexivity].
  - destruct (@collapse_from_spec bs b b) as [Hg Hx]; [lia | exact Hs |].
    split; [exact Hg|]. rewrite Hx, expand_point. reflexivity.
Qed.

Lemma StronglySorted_In_cases (A : Type) (R : A -> A -> Prop) (l : list A) (a b : A) :
  StronglySorted R l -> In a l -> In b l -> a = b \/ R a b \/ R b a.
Proof.
  induction 1 as [|c l Hs IH Hc]; intros Ha Hb; [contradiction|].
  rewrite Forall_forall in Hc.
  destruct Ha as [->|Ha], Hb as [->|Hb]; auto.
Qed.

(** Nothing in a gap chain touches the code points next to one of its
    ranges. *)
Lemma gap_chain_border (rs : list range) (r : range) (x : Z) :
  gap_chain rs -> In r rs -> x = lo r - 1 \/ x = hi r + 1 -> covered rs x = false.
Proof.
  intros Hg Hr Hx. destruct (covered rs x) eqn:E; [|reflexivity]. exfalso.
  apply covered_iff in E. destruct E as [s [Hs Hc]]. apply covers_iff in Hc.
  pose proof (gap_chain_valid rs Hg) as Hv. rewrite Forall_forall in Hv.
  pose proof (Hv r Hr) as Hvr. pose proof (Hv s Hs) as Hvs. unfold valid in *.
  destruct (StronglySorted_In_cases r s (gap_chain_sorted rs Hg) Hr Hs)
    as [->|[H|H]]; lia.
Qed.

(** C2. The scan over [sorted(set(bases))] returns ranges in ascending order
    with a gap between any two of them; every range is a maximal run of
    consecutive integers of the input (all its points are in the input, the
    points just below and just above are not); the ranges expand to the sorted
    distinct scalars, so exactly to the input set; no input gives no range. *)
Theorem collapse_maximal_runs (bases : list Z) :
  StronglySorted (fun r s => hi r + 1 < lo s) (collapse bases) /\
  (forall r, In r (collapse bases) ->
     lo r <= hi r /\
     (forall x, lo r <= x <= hi r -> In x bases) /\
     ~ In (lo r - 1) bases /\ ~ In (hi r + 1) bases) /\
  flat_map expand (collapse bases) = sorted Z.ltb (nodup Z.eq_dec bases) /\
  NoDup (flat_map expand (collapse bases)) /\
  (forall x, In x (flat_map expand (collapse bases)) <-> In x bases) /\
  collapse [] = [].
Proof.
  destruct (collapse_spec bases) as [Hg Hx].
  assert (Hin : forall x, In x (flat_map expand (collapse bases)) <-> In x bases)
    by (intros x; rewrite Hx; apply sorted_set_In).
  split; [now apply gap_chain_sorted|].
  split; [|split; [exact Hx|split; [|split; [exact Hin|reflexivity]]]].
  - intros r Hr.
    pose proof (gap_chain_valid _ Hg) as Hv. rewrite Forall_forall in Hv.
    split; [exact (Hv r Hr)|]. split; [|split].
    + intros x Hxr. apply Hin. apply in_flat_map. exists r.
      split; [exact Hr | now apply expand_In].
    + intros Hb. apply Hin, flat_expand_In in Hb.
      rewrite (@gap_chain_border _ r (lo r - 1)) in Hb; auto; discriminate.
    + intros Hb. apply Hin, flat_expand_In in Hb.
      rewrite (@gap_chain_border _ r (hi r + 1)) in Hb; auto; discriminate.
  - rewrite Hx. eapply Permutation_NoDup; [symmetry; apply sorted_Z_perm|].
    apply NoDup_nodup.
Qed.

(** ** Strings *)

Lemma str_eqb_eq (s t : str) : str_eqb s t = true <-> s = t.
Proof.
  revert t. induction s as [|a s IH]; intros [|b t]; simpl;
    try (split; [discriminate | discriminate]); [tauto|].
  rewrite andb_true_iff, Ascii.eqb_eq, IH. split.
  - intros [-> ->]. reflexivity.
  - intros H. injection H as -> ->. tauto.
Qed.

Lemma str_eqb_neq (s t : str) : str_eqb s t = false <-> s <> t.
Proof.
  rewrite <- str_eqb_eq. destruct (str_eqb s t); split; congruence.
Qed.

Lemma contains_sep (a b : str) : contains (lit "..") (a ++ lit ".." ++ b) = true.
Proof.
  induction a as [|c a IH]; [reflexivity|].
  change ((c :: a) ++ lit ".." ++ b) with (c :: (a ++ lit ".." ++ b)).
  cbn [contains]. rewrite IH. apply orb_true_r.
Qed.

Lemma no_dot_contains (s : str) : no_dot s -> contains (lit "..") s = false.
Proof.
  induction 1 as [|c s Hc Hs IH]; [reflexivity|].
  cbn [contains]. rewrite IH, orb_false_r.
  change (starts_with (lit "..") (c :: s))
    with (Ascii.eqb "." c && starts_with (lit ".") s).
  destruct (Ascii.eqb "." c) eqn:E; [|reflexivity].
  apply Ascii.eqb_eq in E. congruence.
Qed.

Lemma split_pair_no_dot (s : str) : no_dot s -> split_pair "." "." s = [s].
Proof.
  induction 1 as [|c s Hc Hs IH]; [reflexivity|].
  destruct s as [|y s']; [reflexivity|].
  cbn [split_pair]. cbn [split_pair] in IH.
  apply Ascii.eqb_neq in Hc. rewrite Hc. simpl andb. cbv iota.
  rewrite IH. reflexivity.
Qed.

Lemma split_pair_sep (a b : str) :
  no_dot a ->
  split_pair "." "." (a ++ lit ".." ++ b) = a :: split_pair "." "." b.
Proof.
  induction 1 as [|c a Hc Ha IH]; [reflexivity|].
  change ((c :: a) ++ lit ".." ++ b) with (c :: (a ++ lit ".." ++ b)).
  destruct (a ++ lit ".." ++ b) as [|y t] eqn:E.
  - destruct a; discriminate E.
  - cbn [split_pair]. cbn [split_pair] in IH.
    apply Ascii.eqb_neq in Hc. rewrite Hc. simpl andb. cbv iota.
    rewrite IH. reflexivity.
Qed.

Lemma cons_head_length (c : ascii) (parts : list str) :
  parts <> [] -> List.length (cons_head c parts) = List.length parts.
Proof. destruct parts; [congruence | reflexivity]. Qed.

Lemma split_pair_nonempty (c1 c2 : ascii) (s : str) : split_pair c1 c2 s <> [].
Proof.
  destruct s as [|x [|y s]]; simpl; try discriminate.
  destruct (Ascii.eqb x c1 && Ascii.eqb y c2); [discriminate|].
  destruct (match s with [] => _ | _ => _ end); discriminate.
Qed.

(** One more character in front adds at most one piece and removes none. *)
Lemma split_pair_length_cons (c1 c2 : ascii) (s : str) :
  forall x,
    (List.length (split_pair c1 c2 s) <= List.length (split_pair c1 c2 (x :: s))
     <= S (List.length (split_pair c1 c2 s)))%nat.
Proof.
  induction s as [|y s IH]; intros x; [simpl; lia|].
  specialize (IH y).
  change (split_pair c1 c2 (x :: y :: s)) with
    (if Ascii.eqb x c1 && Ascii.eqb y c2
     then [] :: split_pair c1 c2 s
     else cons_head x (split_pair c1 c2 (y :: s))).
  destruct (Ascii.eqb x c1 && Ascii.eqb y c2).
  - cbn [List.length]. lia.
  - rewrite cons_head_length by apply split_pair_nonempty. lia.
Qed.

Lemma split_pair_length_app (c1 c2 : ascii) (a s : str) :
  (List.length (split_pair c1 c2 s) <= List.length (split_pair c1 c2 (a ++ s)))%nat.
Proof.
  induction a as [|x a IH]; [simpl; lia|].
  pose proof (split_pair_length_cons c1 c2 (a ++ s) x) as H.
  simpl app. lia.
Qed.

Lemma split_pair_length_sep (a s : str) :
  (S (List.length (split_pair "." "." s))
   <= List.length (split_pair "." "." (a ++ lit ".." ++ s)))%nat.
Proof.
  pose proof (split_pair_length_app "." "." a (lit ".." ++ s)) as H.
  change (split_pair "." "." (lit ".." ++ s)) with ([] :: split_pair "." "." s) in H.
  cbn [List.length] in H. exact H.
Qed.

Lemma split_pair_two_seps (a b c : str) :
  (3 <= List.length (split_pair "." "." (a ++ lit ".." ++ b ++ lit ".." ++ c)))%nat.
Proof.
  pose proof (split_pair_length_sep a (b ++ lit ".." ++ c)) as H1.
  pose proof (split_pair_length_sep b c) as H2.
  assert (H3 : (1 <= List.length (split_pair "." "." c))%nat).
  { pose proof (@split_pair_nonempty "." "." c).
    destruct (split_pair "." "." c); [congruence | simpl; lia]. }
  lia.
Qed.

(** ** What [int] accepts has no dot *)

Lemma skip_spaces_no_dot (s : str) : no_dot (skip_spaces s) -> no_dot s.
Proof.
  induction s as [|c s IH]; simpl; [auto|].
  destruct (isspace_int c) eqn:E; [|auto].
  intros H. constructor; [|exact (IH H)]. intros ->. discriminate E.
Qed.

Lemma scan_digits_no_dot (s : str) :
  forall prev_us acc v rest,
    scan_digits prev_us acc s = Some (v, rest) -> no_dot rest -> no_dot s.
Proof.
  induction s as [|c s IH]; intros p acc v rest; simpl.
  - intros _ _. constructor.
  - destruct (hex_digit c) eqn:E.
    + intros H Hr. constructor; [intros ->; discriminate E|].
      exact (IH _ _ _ _ H Hr).
    + destruct (Ascii.eqb c "_") eqn:E2.
      * destruct p; [discriminate|]. intros H Hr.
        apply Ascii.eqb_eq in E2. subst c.
        constructor; [discriminate|]. exact (IH _ _ _ _ H Hr).
      * destruct p; [discriminate|]. intros H Hr.
        injection H as _ <-. exact Hr.
Qed.

Lemma parse_digits_no_dot (s : str) (v : Z) (rest : str) :
  parse_digits s = Some (v, rest) -> no_dot rest -> no_dot s.
Proof.
  destruct s as [|c s]; simpl; [discriminate|].
  destruct (hex_digit c) eqn:E; [|discriminate].
  intros H Hr. constructor; [intros ->; discriminate E|].
  exact (scan_digits_no_dot _ _ _ H Hr).
Qed.

Lemma skip_prefix_no_dot (s : str) : no_dot (skip_prefix s) -> no_dot s.
Proof.
  destruct s as [|z [|x s]]; simpl; auto.
  destruct (Ascii.eqb z "0" && (Ascii.eqb x "x" || Ascii.eqb x "X")) eqn:E; [|auto].
  apply andb_true_iff in E. destruct E as [Ez Ex].
  apply Ascii.eqb_eq in Ez. subst z.
  assert (Hx : x <> "."%char).
  { apply orb_true_iff in Ex.
    destruct Ex as [Ex|Ex]; apply Ascii.eqb_eq in Ex; subst x; discriminate. }
  intros H. constructor; [discriminate|]. constructor; [exact Hx|].
  destruct s as [|u s]; [exact H|].
  destruct (Ascii.eqb u "_") eqn:Eu; [|exact H].
  apply Ascii.eqb_eq in Eu. subst u. constructor; [discriminate | exact H].
Qed.

Lemma skip_sign_no_dot (s : str) : no_dot (snd (skip_sign s)) -> no_dot s.
Proof.
  destruct s as [|c s]; simpl; [auto|].
  destruct (Ascii.eqb c "+") eqn:E1.
  - apply Ascii.eqb_eq in E1. subst c. simpl. intros H.
    constructor; [discriminate | exact H].
  - destruct (Ascii.eqb c "-") eqn:E2; [|auto].
    apply Ascii.eqb_eq in E2. subst c. simpl. intros H.
    constructor; [discriminate | exact H].
Qed.

Lemma int16_no_dot (s : str) (v : Z) : int16 s = Some v -> no_dot s.
Proof.
  unfold int16. intros H. apply skip_spaces_no_dot, skip_sign_no_dot.
  destruct (skip_sign (skip_spaces s)) as [negative s1]. simpl.
  apply skip_prefix_no_dot.
  destruct (parse_digits (skip_prefix s1)) as [[v' rest]|] eqn:E; [|discriminate].
  eapply parse_digits_no_dot; [exact E|].
  apply skip_spaces_no_dot.
  destruct (skip_spaces rest); [constructor | discriminate].
Qed.

(** ** The line loop *)

Section Collect.
Variable A : Type.
Variable step : str -> result (option A).

Lemma collect_raises (lines : list str) :
  forall acc line,
    In line lines -> raises (step line) -> raises (collect step acc lines).
Proof.
  induction lines as [|l lines IH]; intros acc line Hin Hr; [contradiction|].
  simpl. destruct (step l) as [e|r] eqn:E.
  - exists e. reflexivity.
  - simpl. destruct Hin as [->|Hin].
    + destruct Hr as [e He]. congruence.
    + eapply IH; eauto.
Qed.

Lemma collect_keeps (lines : list str) :
  forall acc out a, collect step acc lines = ret out -> In a acc -> In a out.
Proof.
  induction lines as [|l lines IH]; intros acc out a; simpl.
  - intros H. injection H as <-. auto.
  - destruct (step l) as [e|r]; simpl; [discriminate|].
    intros H Ha. eapply IH; [exact H|].
    destruct r; simpl; [apply in_or_app|]; auto.
Qed.

(** A line that yields a value puts it in what the loop returns. *)
Lemma collect_contributes (before : list str) :
  forall acc line after a out,
    step line = ret (Some a) ->
    collect step acc (before ++ line :: after) = ret out -> In a out.
Proof.
  induction before as [|l before IH]; intros acc line after a out Hs; simpl.
  - rewrite Hs. simpl. intros H. eapply collect_keeps; [exact H|].
    apply in_or_app. right. now left.
  - destruct (step l) as [e|r]; simpl; [discriminate|]. now apply IH.
Qed.

(** A line that yields nothing could as well be absent. *)
Lemma collect_skips (before : list str) :
  forall acc line after,
    step line = ret None ->
    collect step acc (before ++ line :: after) = collect step acc (before ++ after).
Proof.
  induction before as [|l before IH]; intros acc line after Hs; simpl.
  - rewrite Hs. reflexivity.
  - destruct (step l) as [e|r]; simpl; [reflexivity|]. now apply IH.
Qed.
End Collect.

(** ** The East Asian Width filter *)

Lemma eaw_line_fields (line : str) (fields : list str) :
  split_fields line = Some fields -> eaw_line line = eaw_record fields.
Proof. unfold eaw_line. now intros ->. Qed.

Lemma eaw_record_rejects (tok prop : str) (rest : list str) :
  prop <> lit "W" -> prop <> lit "F" -> eaw_record (tok :: prop :: rest) = ret None.
Proof.
  intros HW HF. apply str_eqb_neq in HW, HF.
  unfold eaw_record. now rewrite HW, HF.
Qed.

Lemma eaw_record_accepts (tok prop : str) (rest : list str) :
  prop = lit "W" \/ prop = lit "F" ->
  eaw_record (tok :: prop :: rest) =
  (tokens <- range_tokens tok ;;
   l <- py_int16 (fst tokens) ;;
   h <- py_int16 (snd tokens) ;;
   ret (Some (l, h))).
Proof. intros [->| ->]; reflexivity. Qed.

Lemma eaw_record_accepted (tok prop : str) (rest : list str) (r : range) :
  eaw_record (tok :: prop :: rest) = ret (Some r) ->
  prop = lit "W" \/ prop = lit "F".
Proof.
  unfold eaw_record.
  destruct (str_eqb prop (lit "W")) eqn:EW; [apply str_eqb_eq in EW; auto|].
  destruct (str_eqb prop (lit "F")) eqn:EF; [apply str_eqb_eq in EF; auto|].
  discriminate.
Qed.

Lemma range_tokens_reads (tok : str) (r : range) :
  token_reads tok r ->
  exists l h,
    range_tokens tok = ret (l, h) /\ int16 l = Some (lo r) /\ int16 h = Some (hi r).
Proof.
  intros [t v Hv | a b x y Ha Hb]; unfold range_tokens.
  - exists t, t. rewrite (no_dot_contains (int16_no_dot _ Hv)). auto.
  - exists a, b. rewrite contains_sep.
    rewrite (split_pair_sep b (int16_no_dot _ Ha)).
    rewrite (split_pair_no_dot (int16_no_dot _ Hb)). auto.
Qed.

Lemma eaw_record_reads (tok prop : str) (rest : list str) (r : range) :
  token_reads tok r -> prop = lit "W" \/ prop = lit "F" ->
  eaw_record (tok :: prop :: rest) = ret (Some r).
Proof.
  intros Ht Hp. rewrite (eaw_record_accepts tok rest Hp).
  destruct (range_tokens_reads Ht) as [l [h [-> [Hl Hh]]]].
  simpl. unfold py_int16. rewrite Hl, Hh. simpl. now destruct r.
Qed.

(** C3. A record whose token [int] reads contributes its range, [lo = hi]
    for a point token and the two sides of [".."] otherwise, exactly when the
    second field is ["W"] or ["F"]: then every code point of the range is
    covered by what [parse_east_asian_width] returns; with any other second
    field the line yields nothing and the loop runs as if the line were
    absent. *)
Theorem eaw_filter_keeps_W_and_F
  (text : str) (before after : list str) (line tok prop : str)
  (rest : list str) (r : range) :
  splitlines text = before ++ line :: after ->
  split_fields line = Some (tok :: prop :: rest) ->
  token_reads tok r ->
  (eaw_line line = ret (Some r) <-> prop = lit "W" \/ prop = lit "F") /\
  (prop = lit "W" \/ prop = lit "F" ->
   forall out,
     parse_east_asian_width text = ret out ->
     forall x, covers r x = true -> covered out x = true) /\
  (prop <> lit "W" -> prop <> lit "F" ->
   eaw_line line = ret None /\
   collect eaw_line [] (splitlines text) = collect eaw_line [] (before ++ after)).
Proof.
  intros Hlines Hf Ht. rewrite (eaw_line_fields _ Hf).
  assert (Hyes : prop = lit "W" \/ prop = lit "F" ->
                 eaw_record (tok :: prop :: rest) = ret (Some r))
    by (now apply eaw_record_reads).
  split; [|split].
  - split; [apply eaw_record_accepted | exact Hyes].
  - intros Hp out Hout x Hx. unfold parse_east_asian_width in Hout.
    destruct (collect eaw_line [] (splitlines text)) as [e|raw] eqn:Hraw;
      [discriminate|].
    simpl in Hout. injection Hout as <-.
    rewrite merge_ranges_covered. apply covered_iff. exists r.
    split; [|exact Hx]. rewrite Hlines in Hraw.
    eapply collect_contributes; [|exact Hraw].
    rewrite (eaw_line_fields _ Hf). now apply Hyes.
  - intros HW HF. pose proof (eaw_record_rejects tok rest HW HF) as Hno.
    split; [exact Hno|]. rewrite Hlines. apply collect_skips.
    now rewrite (eaw_line_fields _ Hf).
Qed.

Lemma eaw_filter_keeps_W_and_F_witness :
  let line := lit "FF01..FF03;F  # fullwidth" in
  let text := lit "0041;Na" ++ newline ++ line in
  splitlines text = [lit "0041;Na"] ++ line :: [] /\
  split_fields line = Some [lit "FF01..FF03"; lit "F"] /\
  token_reads (lit "FF01..FF03") (0xFF01, 0xFF03) /\
  eaw_line line = ret (Some (0xFF01, 0xFF03)) /\
  parse_east_asian_width text = ret [(0xFF01, 0xFF03)].
Proof.
  intros line text.
  assert (Hl : splitlines text = [lit "0041;Na"] ++ line :: []) by reflexivity.
  assert (Hf : split_fields line = Some [lit "FF01..FF03"; lit "F"]) by reflexivity.
  assert (Ht : token_reads (lit "FF01..FF03") (0xFF01, 0xFF03))
    by (apply (@reads_span (lit "FF01") (lit "FF03")); reflexivity).
  split; [exact Hl|]. split; [exact Hf|]. split; [exact Ht|].
  pose proof (@eaw_filter_keeps_W_and_F text _ _ line _ _ _ _ Hl Hf Ht) as H.
  split; [|reflexivity].
  apply (proj1 H). right. reflexivity.
Defined.

(** C7. When an accepted record (second field ["W"] or ["F"]) hands [int] a
    string that is no base-16 literal, [parse_east_asian_width] raises, [main]
    ends with that exception and a non-zero status, and the world, the
    generated file included, is as it was. *)
Theorem malformed_hex_is_fatal
  (fetch : str -> result str) (out_path : str) (w : world)
  (text line tok prop : str) (rest : list str) (l h : str) :
  fetch EAST_ASIAN_WIDTH_URL = ret text ->
  In line (splitlines text) ->
  split_fields line = Some (tok :: prop :: rest) ->
  prop = lit "W" \/ prop = lit "F" ->
  range_tokens tok = ret (l, h) ->
  int16 l = None \/ int16 h = None ->
  raises (parse_east_asian_width text) /\
  exists e,
    main fetch out_path w = (w, raise e) /\
    exit_status (snd (main fetch out_path w)) = 1.
Proof.
  intros Hfetch Hin Hf Hp Htok Hbad.
  assert (Hline : raises (eaw_line line)).
  { rewrite (eaw_line_fields _ Hf), (eaw_record_accepts tok rest Hp), Htok.
    simpl. unfold py_int16.
    destruct (int16 l) as [vl|] eqn:El; [|eexists; reflexivity].
    destruct Hbad as [Hbad|Hbad]; [discriminate|]. rewrite Hbad.
    eexists; reflexivity. }
  destruct (@collect_raises _ eaw_line _ [] _ Hin Hline) as [e He].
  assert (Hparse : parse_east_asian_width text = raise e)
    by (unfold parse_east_asian_width; now rewrite He).
  split; [exists e; exact Hparse|].
  exists e. unfold main. rewrite Hfetch. simpl. rewrite Hparse. auto.
Qed.

Lemma malformed_hex_is_fatal_witness :
  let text := lit "3000;W" ++ newline ++ lit "30G0..30FF;F" in
  let w := {| artifact := Some (lit "// previous table"); stdout := [] |} in
  raises (parse_east_asian_width text) /\
  fst (main (fun _ => ret text) (lit "UnicodeWidthData.swift") w) = w.
Proof.
  intros text w.
  pose proof (@malformed_hex_is_fatal (fun _ => ret text)
                (lit "UnicodeWidthData.swift") w text (lit "30G0..30FF;F")
                (lit "30G0..30FF") (lit "F") [] (lit "30G0") (lit "30FF")
                eq_refl) as H.
  assert (Hin : In (lit "30G0..30FF;F") (splitlines text))
    by (right; left; reflexivity).
  specialize (H Hin eq_refl (or_intror eq_refl) eq_refl (or_introl eq_refl)).
  split; [exact (proj1 H) | reflexivity].
Defined.

(** C9. An accepted record whose token holds the separator [".."] twice
    makes line 43 raise: the split has at least three parts, the unpacking
    into [lo, hi] fails, and [parse_east_asian_width] raises. *)
Theorem repeated_separator_is_fatal
  (text line a b c prop : str) (rest : list str) :
  In line (splitlines text) ->
  split_fields line = Some ((a ++ lit ".." ++ b ++ lit ".." ++ c) :: prop :: rest) ->
  prop = lit "W" \/ prop = lit "F" ->
  (exists n, (3 <= n)%nat /\ eaw_line line = raise (ValueError_unpack n)) /\
  raises (parse_east_asian_width text).
Proof.
  intros Hin Hf Hp.
  assert (Hline : exists n, (3 <= n)%nat /\ eaw_line line = raise (ValueError_unpack n)).
  { rewrite (eaw_line_fields _ Hf), (eaw_record_accepts _ rest Hp).
    unfold range_tokens. rewrite contains_sep.
    pose proof (split_pair_two_seps a b c) as Hlen.
    destruct (split_pair "." "." (a ++ lit ".." ++ b ++ lit ".." ++ c))
      as [|p0 [|p1 [|p2 ps]]] eqn:E; simpl in Hlen; try lia.
    eexists. split; [|reflexivity]. simpl. lia. }
  split; [exact Hline|].
  destruct Hline as [n [_ Hn]].
  destruct (@collect_raises _ eaw_line _ [] _ Hin (ex_intro _ _ Hn)) as [e He].
  exists e. unfold parse_east_asian_width. now rewrite He.
Qed.

Lemma repeated_separator_is_fatal_witness :
  let text := lit "1..2..3;W" in
  eaw_line text = raise (ValueError_unpack 3) /\
  raises (parse_east_asian_width text).
Proof.
  intros text. split; [reflexivity|].
  apply (@repeated_separator_is_fatal text text (lit "1") (lit "2") (lit "3")
           (lit "W") []).
  - left. reflexivity.
  - reflexivity.
  - left. reflexivity.
Defined.

(** C10. For an accepted record [X..Y] with literals [X] and [Y] the pair of
    their values goes to the merger whatever their order, and there is an
    input, [FF10..FF01;W], for which a returned range has [lo > hi]. *)
Theorem range_order_is_not_checked
  (text line a b prop : str) (rest : list str) (x y : Z) (raw : list range) :
  In line (splitlines text) ->
  split_fields line = Some ((a ++ lit ".." ++ b) :: prop :: rest) ->
  prop = lit "W" \/ prop = lit "F" ->
  int16 a = Some x -> int16 b = Some y ->
  collect eaw_line [] (splitlines text) = ret raw ->
  eaw_line line = ret (Some (x, y)) /\
  In (x, y) raw /\
  parse_east_asian_width text = ret (merge_ranges raw) /\
  exists input out r,
    parse_east_asian_width input = ret out /\ In r out /\ hi r < lo r.
Proof.
  intros Hin Hf Hp Ha Hb Hraw.
  assert (Hline : eaw_line line = ret (Some (x, y))).
  { rewrite (eaw_line_fields _ Hf). apply eaw_record_reads; [|exact Hp].
    now apply reads_span. }
  split; [exact Hline|]. split; [|split].
  - destruct (in_split _ _ Hin) as [before [after Heq]]. rewrite Heq in Hraw.
    eapply collect_contributes; eauto.
  - unfold parse_east_asian_width. now rewrite Hraw.
  - exists (lit "FF10..FF01;W"), [(0xFF10, 0xFF01)], (0xFF10, 0xFF01).
    split; [reflexivity|]. split; [now left | reflexivity].
Qed.

Lemma range_order_is_not_checked_witness :
  let text := lit "FF10..FF01;W" in
  eaw_line text = ret (Some (0xFF10, 0xFF01)) /\
  parse_east_asian_width text = ret [(0xFF10, 0xFF01)] /\
  ~ valid (0xFF10, 0xFF01).
Proof.
  intros text.
  pose proof (@range_order_is_not_checked text text (lit "FF10") (lit "FF01")
                (lit "W") [] 0xFF10 0xFF01 [(0xFF10, 0xFF01)]
                (or_introl eq_refl) eq_refl (or_introl eq_refl)
                eq_refl eq_refl eq_refl) as H.
  split; [exact (proj1 H)|]. split; [exact (proj1 (proj2 (proj2 H)))|].
  unfold valid, lo, hi. simpl. lia.
Defined.

(** ** The emoji filter *)

Lemma emoji_line_fields (line : str) (fields : list str) :
  split_fields line = Some fields -> emoji_line line = emoji_record fields.
Proof. unfold emoji_line. now intros ->. Qed.

Lemma emoji_record_accepted (seq style : str) (rest : list str) (base : Z) :
  emoji_record (seq :: style :: rest) = ret (Some base) <->
  style = lit "emoji style" /\
  exists p0 p1,
    split_whitespace seq = [p0; p1] /\
    int16 p0 = Some base /\ int16 p1 = Some VS16.
Proof.
  unfold emoji_record. split.
  - destruct (str_eqb style (lit "emoji style")) eqn:Es; simpl; [|discriminate].
    apply str_eqb_eq in Es.
    destruct (split_whitespace seq) as [|p0 [|p1 [|p2 ps]]]; try discriminate.
    unfold py_int16.
    destruct (int16 p0) as [v0|] eqn:E0; simpl; [|discriminate].
    destruct (int16 p1) as [v1|] eqn:E1; simpl; [|discriminate].
    destruct (v1 =? VS16) eqn:Ev; simpl; [|discriminate].
    apply Z.eqb_eq in Ev. subst v1. intros H. injection H as ->.
    split; [exact Es|]. exists p0, p1. auto.
  - intros [-> [p0 [p1 [-> [H0 H1]]]]].
    unfold py_int16. rewrite H0, H1. reflexivity.
Qed.

Lemma emoji_record_token_count (seq style : str) (rest : list str) :
  List.length (split_whitespace seq) <> 2%nat ->
  emoji_record (seq :: style :: rest) = ret None.
Proof.
  intros Hn. unfold emoji_record.
  destruct (str_eqb style (lit "emoji style")); simpl; [|reflexivity].
  destruct (split_whitespace seq) as [|p0 [|p1 [|p2 ps]]]; try reflexivity.
  simpl in Hn. congruence.
Qed.

(** C4, as the code has it. A line yields a base exactly when its style
    field is ["emoji style"], its first field splits into two tokens, the
    first token is a base-16 literal (its value is the base) and the second is
    a literal of value [0xFE0F].  A pair of tokens ending in [0xFE0E] yields no
    base, and a first field of one token is skipped without an exception. *)
Theorem emoji_filter_accepts_exactly (line : str) (base : Z) :
  (emoji_line line = ret (Some base) <->
   exists seq style rest p0 p1,
     split_fields line = Some (seq :: style :: rest) /\
     style = lit "emoji style" /\
     split_whitespace seq = [p0; p1] /\
     int16 p0 = Some base /\ int16 p1 = Some 0xFE0F) /\
  (forall seq style rest p0 p1,
     split_fields line = Some (seq :: style :: rest) ->
     split_whitespace seq = [p0; p1] -> int16 p1 = Some 0xFE0E ->
     emoji_line line <> ret (Some base)) /\
  (forall seq style rest p0,
     split_fields line = Some (seq :: style :: rest) ->
     split_whitespace seq = [p0] -> emoji_line line = ret None).
Proof.
  split; [|split].
  - split.
    + unfold emoji_line.
      destruct (split_fields line) as [[|seq [|style rest]]|] eqn:Ef;
        try discriminate.
      intros H. apply emoji_record_accepted in H.
      destruct H as [Hs [p0 [p1 [Hw [H0 H1]]]]].
      exists seq, style, rest, p0, p1. auto.
    + intros [seq [style [rest [p0 [p1 [Hf [Hs [Hw [H0 H1]]]]]]]]].
      rewrite (emoji_line_fields _ Hf). apply emoji_record_accepted.
      split; [exact Hs|]. exists p0, p1. auto.
  - intros seq style rest p0 p1 Hf Hw H1 H.
    rewrite (emoji_line_fields _ Hf) in H. apply emoji_record_accepted in H.
    destruct H as [_ [q0 [q1 [Hw' [_ Hq1]]]]].
    rewrite Hw in Hw'. injection Hw' as _ <-. rewrite H1 in Hq1. discriminate.
  - intros seq style rest p0 Hf Hw. rewrite (emoji_line_fields _ Hf).
    apply emoji_record_token_count. rewrite Hw. discriminate.
Qed.

(** C4 as the specification words it fails on a line whose style and
    second token are as required and whose first token is no literal: line 65
    raises, so nothing is accepted. *)
Lemma emoji_filter_malformed_base :
  let line := lit "ZZ FE0F ; emoji style" in
  split_fields line = Some [lit "ZZ FE0F"; lit "emoji style"] /\
  split_whitespace (lit "ZZ FE0F") = [lit "ZZ"; lit "FE0F"] /\
  int16 (lit "FE0F") = Some 0xFE0F /\
  emoji_line line = raise (ValueError_literal (lit "ZZ")) /\
  parse_emoji_vs16_bases line = raise (ValueError_literal (lit "ZZ")).
Proof. repeat split; reflexivity. Qed.

(** C8, as the code has it. A line labelled ["emoji style"] whose first field
    does not split into two tokens is skipped: it yields nothing, raises
    nothing, and the loop runs as if the line were absent. *)
Theorem emoji_token_count_is_skipped
  (before after : list str) (line seq : str) (rest : list str) (bases : list Z) :
  split_fields line = Some (seq :: lit "emoji style" :: rest) ->
  List.length (split_whitespace seq) <> 2%nat ->
  emoji_line line = ret None /\
  collect emoji_line bases (before ++ line :: after) =
  collect emoji_line bases (before ++ after).
Proof.
  intros Hf Hn.
  assert (Hline : emoji_line line = ret None)
    by (rewrite (emoji_line_fields _ Hf); now apply emoji_record_token_count).
  split; [exact Hline | now apply collect_skips].
Qed.

Lemma emoji_token_count_is_skipped_witness :
  let line := lit "0023 ; emoji style" in
  emoji_line line = ret None /\
  collect emoji_line [] [lit "0025 FE0F ; emoji style"; line] = ret [0x25].
Proof.
  intros line.
  pose proof (@emoji_token_count_is_skipped [lit "0025 FE0F ; emoji style"] []
                line (lit "0023") [] [] eq_refl) as H.
  assert (Hn : List.length (split_whitespace (lit "0023")) <> 2%nat)
    by (vm_compute; discriminate).
  specialize (H Hn). split; [exact (proj1 H)|].
  etransitivity; [exact (proj2 H) | reflexivity].
Defined.

(** C8 as the specification words it fails: the run on a single-token line
    labelled ["emoji style"] ends normally, with no range and status 0. *)
Lemma emoji_token_count_not_fatal :
  let line := lit "0023 ; emoji style" in
  let run := main (fun _ => ret line) (lit "UnicodeWidthData.swift")
               {| artifact := None; stdout := [] |} in
  split_fields line = Some [lit "0023"; lit "emoji style"] /\
  List.length (split_whitespace (lit "0023")) = 1%nat /\
  emoji_line line = ret None /\
  parse_emoji_vs16_bases line = ret [] /\
  snd run = ret tt /\ exit_status (snd run) = 0.
Proof. repeat split; reflexivity. Qed.

(** ** The worked examples of the specification *)

Example east_asian_width_example :
  parse_east_asian_width
    (lit "3000;W  # comment" ++ newline ++ lit "FF01..FF03;F" ++ newline
       ++ lit "0041;Na")
  = ret [(0x3000, 0x3000); (0xFF01, 0xFF03)].
Proof. reflexivity. Qed.

Example emoji_bases_example :
  parse_emoji_vs16_bases
    (lit "0023 FE0F ; emoji style" ++ newline
       ++ lit "0024 FE0F ; text style" ++ newline
       ++ lit "0025 FE0F ; emoji style" ++ newline
       ++ lit "0026 FE0E ; emoji style")
  = ret [(0x23, 0x23); (0x25, 0x25)].
Proof. reflexivity. Qed.

Example adjacency_example :
  collapse [0x10; 0x11; 0x12; 0x20] = [(0x10, 0x12); (0x20, 0x20)].
Proof. reflexivity. Qed.

Example nested_ranges_example :
  merge_ranges [(5, 7); (1, 20); (21, 22); (30, 30)] = [(1, 22); (30, 30)].
Proof. reflexivity. Qed.

(** ** More on the merger: any input, canonical form, composition *)

Lemma covered_app (a b : list range) (x : Z) :
  covered (a ++ b) x = covered a x || covered b x.
Proof. unfold covered. apply existsb_app. Qed.

Lemma merge_from_lo_bound (rest : list range) :
  forall cur,
    StronglySorted (fun r s => lo r <= lo s) (cur :: rest) ->
    Forall (fun r => lo cur <= lo r) (merge_from cur rest).
Proof.
  induction rest as [|[l h] rest IH]; intros cur Hs.
  - simpl. constructor; [lia | constructor].
  - inversion Hs as [|? ? Hs' Hcur]; subst.
    inversion Hcur as [|? ? Hcl Hcrest]; subst.
    inversion Hs' as [|? ? Hs'' Hl]; subst.
    simpl. destruct (l <=? hi cur + 1).
    + apply (IH (lo cur, Z.max (hi cur) h)).
      constructor; [exact Hs''|exact Hcrest].
    + constructor; [lia|].
      eapply Forall_impl; [|apply (IH (l, h)); exact Hs'].
      simpl. unfold lo in *. simpl in *. intros r Hr. lia.
Qed.

(** Whatever the ranges are, what the loop closes is in order of [lo] and
    leaves a gap before the next range. *)
Lemma merge_from_shape (rest : list range) :
  forall cur,
    StronglySorted (fun r s => lo r <= lo s) (cur :: rest) ->
    StronglySorted (fun r s => lo r <= lo s) (merge_from cur rest) /\
    neighbours (fun r s => hi r + 1 < lo s) (merge_from cur rest).
Proof.
  induction rest as [|[l h] rest IH]; intros cur Hs.
  - simpl. split; [repeat constructor | tauto].
  - pose proof (merge_from_lo_bound Hs) as Hb.
    inversion Hs as [|? ? Hs' Hcur]; subst.
    inversion Hcur as [|? ? Hcl Hcrest]; subst.
    inversion Hs' as [|? ? Hs'' Hl]; subst.
    simpl in Hb |- *. destruct (l <=? hi cur + 1) eqn:E.
    + apply (IH (lo cur, Z.max (hi cur) h)).
      constructor; [exact Hs''|exact Hcrest].
    + apply Z.leb_gt in E. destruct (IH (l, h) Hs') as [Hso Hne].
      inversion Hb as [|? ? _ Hb']; subst.
      split; [constructor; assumption|].
      destruct (merge_from_head rest (l, h)) as [h' [tl Heq]].
      rewrite Heq in *. simpl. split; [|exact Hne].
      unfold lo, hi in *. simpl in *. lia.
Qed.

(** X1. For every list of tuples, also with some [lo > hi], [merge_ranges]
    returns tuples in ascending order of [lo], with [prev.hi + 1 < next.lo]
    between neighbours, that cover exactly the code points the input
    covers. *)
Theorem merge_ranges_on_any_input (ranges : list range) :
  StronglySorted (fun r s => lo r <= lo s) (merge_ranges ranges) /\
  neighbours (fun r s => hi r + 1 < lo s) (merge_ranges ranges) /\
  forall x, covered (merge_ranges ranges) x = covered ranges x.
Proof.
  rewrite merge_ranges_eq.
  pose proof (sorted_tuples_perm ranges) as HP.
  pose proof (sorted_tuples_sorted ranges) as HS.
  assert (HS' : StronglySorted (fun r s => lo r <= lo s) (sorted tuple_lt ranges)).
  { eapply StronglySorted_impl; [|exact HS]. unfold tuple_le. intros a b. lia. }
  destruct (sorted tuple_lt ranges) as [|first rest].
  - split; [constructor|]. split; [exact I|].
    intros x. now rewrite <- (covered_perm x HP).
  - destruct (merge_from_shape HS') as [Hso Hne].
    split; [exact Hso|]. split; [exact Hne|].
    intros x. rewrite (merge_from_covered HS').
    now rewrite <- (covered_perm x HP).
Qed.

Lemma gap_chain_head_least (r : range) (rs : list range) (x : Z) :
  gap_chain (r :: rs) -> covered (r :: rs) x = true -> lo r <= x.
Proof.
  intros Hg Hc. pose proof (gap_chain_beyond Hg) as Hb.
  rewrite Forall_forall in Hb.
  assert (Hv : valid r) by (simpl in Hg; tauto). unfold valid in Hv.
  apply covered_iff in Hc. destruct Hc as [s [[<-|Hs] Hx]];
    apply covers_iff in Hx; [lia|].
  specialize (Hb s Hs). lia.
Qed.

Lemma gap_chain_head_alone (r : range) (rs : list range) (x : Z) :
  gap_chain (r :: rs) -> covers r x = true -> covered rs x = false.
Proof.
  intros Hg Hx. pose proof (gap_chain_beyond Hg) as Hb.
  rewrite Forall_forall in Hb. apply covers_iff in Hx.
  destruct (covered rs x) eqn:E; [|reflexivity].
  apply covered_iff in E. destruct E as [s [Hs Hsx]]. apply covers_iff in Hsx.
  specialize (Hb s Hs). lia.
Qed.

Lemma gap_chain_covers_lo (r : range) (rs : list range) :
  gap_chain (r :: rs) -> covered (r :: rs) (lo r) = true.
Proof.
  intros Hg. assert (Hv : valid r) by (simpl in Hg; tauto). unfold valid in Hv.
  simpl. apply orb_true_iff. left. apply covers_iff. lia.
Qed.

(** Two gap chains that cover the same code points are the same list. *)
Lemma gap_chain_unique (a : list range) :
  forall b,
    gap_chain a -> gap_chain b ->
    (forall x, covered a x = covered b x) -> a = b.
Proof.
  induction a as [|r a IH]; intros [|s b] Ha Hb Hc.
  - reflexivity.
  - pose proof (@gap_chain_covers_lo _ _ Hb) as H. rewrite <- Hc in H. discriminate.
  - pose proof (@gap_chain_covers_lo _ _ Ha) as H. rewrite Hc in H. discriminate.
  - assert (Hvr : valid r) by (simpl in Ha; tauto).
    assert (Hvs : valid s) by (simpl in Hb; tauto).
    unfold valid in Hvr, Hvs.
    assert (Hlo : lo r = lo s).
    { pose proof (@gap_chain_covers_lo _ _ Ha) as H1. rewrite Hc in H1.
      pose proof (@gap_chain_covers_lo _ _ Hb) as H2. rewrite <- Hc in H2.
      pose proof (@gap_chain_head_least _ _ _ Hb H1).
      pose proof (@gap_chain_head_least _ _ _ Ha H2). lia. }
    assert (Hhi : hi r = hi s).
    { destruct (Z.lt_trichotomy (hi r) (hi s)) as [Hlt|[Heq|Hgt]]; [|exact Heq|].
      - pose proof (@gap_chain_border (r :: a) r (hi r + 1) Ha
                      (or_introl eq_refl) (or_intror eq_refl)) as H.
        rewrite Hc in H.
        assert (Hin : covered (s :: b) (hi r + 1) = true).
        { simpl. apply orb_true_iff. left. apply covers_iff. lia. }
        congruence.
      - pose proof (@gap_chain_border (s :: b) s (hi s + 1) Hb
                      (or_introl eq_refl) (or_intror eq_refl)) as H.
        rewrite <- Hc in H.
        assert (Hin : covered (r :: a) (hi s + 1) = true).
        { simpl. apply orb_true_iff. left. apply covers_iff. lia. }
        congruence. }
    assert (Hrs : r = s).
    { destruct r, s. unfold lo, hi in *. simpl in *. congruence. }
    subst s. f_equal. apply IH.
    + eapply gap_chain_tail; eauto.
    + eapply gap_chain_tail; eauto.
    + intros x. specialize (Hc x). simpl in Hc.
      destruct (covers r x) eqn:E.
      * rewrite (@gap_chain_head_alone _ _ _ Ha E), (@gap_chain_head_alone _ _ _ Hb E).
        reflexivity.
      * exact Hc.
Qed.

(** X2. The result is a canonical form: two lists of ranges with [lo <= hi]
    that cover the same code points are merged into the same list. *)
Theorem merge_ranges_canonical (l1 l2 : list range) :
  Forall valid l1 -> Forall valid l2 ->
  (forall x, covered l1 x = covered l2 x) ->
  merge_ranges l1 = merge_ranges l2.
Proof.
  intros H1 H2 Hc.
  destruct (merge_ranges_spec H1) as [Hg1 Hc1].
  destruct (merge_ranges_spec H2) as [Hg2 Hc2].
  apply gap_chain_unique; [exact Hg1 | exact Hg2 |].
  intros x. now rewrite Hc1, Hc2.
Qed.

Lemma merge_ranges_canonical_witness :
  let l1 := [(1, 5); (6, 9)] in
  let l2 := [(4, 9); (1, 3); (2, 2)] in
  Forall valid l1 /\ Forall valid l2 /\
  merge_ranges l1 = merge_ranges l2.
Proof.
  intros l1 l2.
  assert (H1 : Forall valid l1)
    by (repeat constructor; unfold valid, lo, hi; simpl; lia).
  assert (H2 : Forall valid l2)
    by (repeat constructor; unfold valid, lo, hi; simpl; lia).
  split; [exact H1|]. split; [exact H2|].
  apply (merge_ranges_canonical H1 H2).
  intros x. apply eq_iff_eq_true. unfold l1, l2. simpl.
  rewrite !orb_true_iff, !covers_iff. unfold lo, hi. simpl. lia.
Defined.

(** X3. Merging composes: ranges can be merged in two steps, the result of
    the first step together with further ranges, with the same result as
    merging all of them at once. *)
Theorem merge_ranges_incremental (a b : list range) :
  Forall valid a -> Forall valid b ->
  merge_ranges (merge_ranges a ++ b) = merge_ranges (a ++ b).
Proof.
  intros Ha Hb. destruct (merge_ranges_spec Ha) as [Hg Hc].
  destruct (@merge_ranges_spec (merge_ranges a ++ b)) as [Hg1 Hc1].
  { apply Forall_app. split; [now apply gap_chain_valid | exact Hb]. }
  destruct (@merge_ranges_spec (a ++ b)) as [Hg2 Hc2].
  { apply Forall_app. auto. }
  apply gap_chain_unique; [exact Hg1 | exact Hg2 |].
  intros x. now rewrite Hc1, Hc2, !covered_app, Hc.
Qed.

Lemma merge_ranges_incremental_witness :
  let a := [(5, 7); (1, 2); (3, 3)] in
  let b := [(8, 9); (20, 21)] in
  Forall valid a /\ Forall valid b /\
  merge_ranges (merge_ranges a ++ b) = [(1, 3); (5, 9); (20, 21)] /\
  merge_ranges (a ++ b) = [(1, 3); (5, 9); (20, 21)].
Proof.
  intros a b.
  assert (Ha : Forall valid a)
    by (repeat constructor; unfold valid, lo, hi; simpl; lia).
  assert (Hb : Forall valid b)
    by (repeat constructor; unfold valid, lo, hi; simpl; lia).
  split; [exact Ha|]. split; [exact Hb|]. split; [|reflexivity].
  etransitivity; [exact (merge_ranges_incremental Ha Hb) | reflexivity].
Defined.

(** X4. Nested ranges collapse into the outer one: when one range of the
    input contains all the others, the result is that range alone. *)
Theorem merge_ranges_nested (outer : range) (ranges : list range) :
  In outer ranges ->
  Forall (fun r => lo outer <= lo r /\ lo r <= hi r /\ hi r <= hi outer) ranges ->
  merge_ranges ranges = [outer].
Proof.
  intros Hin Hall. rewrite Forall_forall in Hall.
  assert (Hvo : valid outer) by (unfold valid; destruct (Hall outer Hin); lia).
  assert (Hv : Forall valid ranges).
  { apply Forall_forall. intros r Hr. unfold valid. destruct (Hall r Hr). lia. }
  destruct (merge_ranges_spec Hv) as [Hg Hc].
  apply gap_chain_unique; [exact Hg | simpl; tauto |].
  intros x. rewrite Hc. apply eq_iff_eq_true. simpl. rewrite orb_false_r.
  rewrite covered_iff, covers_iff. split.
  - intros [r [Hr Hx]]. apply covers_iff in Hx. destruct (Hall r Hr). lia.
  - intros Hx. exists outer. split; [exact Hin | now apply covers_iff].
Qed.

Lemma merge_ranges_nested_witness :
  merge_ranges [(5, 7); (1, 20); (20, 20); (2, 3)] = [(1, 20)].
Proof.
  apply merge_ranges_nested.
  - right. left. reflexivity.
  - repeat constructor; unfold lo, hi; simpl; lia.
Defined.

Lemma merge_from_length (rest : list range) :
  forall cur, (List.length (merge_from cur rest) <= S (List.length rest))%nat.
Proof.
  induction rest as [|[l h] rest IH]; intros cur; simpl; [lia|].
  destruct (l <=? hi cur + 1).
  - specialize (IH (lo cur, Z.max (hi cur) h)). lia.
  - specialize (IH (l, h)). simpl. lia.
Qed.

(** X5. [merge_ranges] never returns more ranges than it was given, and it
    returns no range only when it was given none. *)
Theorem merge_ranges_length (ranges : list range) :
  (List.length (merge_ranges ranges) <= List.length ranges)%nat /\
  (merge_ranges ranges = [] <-> ranges = []).
Proof.
  rewrite merge_ranges_eq.
  pose proof (Permutation_length (sorted_tuples_perm ranges)) as Hlen.
  pose proof (sorted_tuples_perm ranges) as HP.
  destruct (sorted tuple_lt ranges) as [|first rest] eqn:E.
  - apply Permutation_nil in HP. subst ranges. simpl. split; [lia | tauto].
  - split.
    + pose proof (merge_from_length rest first). simpl in Hlen. lia.
    + destruct (merge_from_head rest first) as [h [tl Heq]]. rewrite Heq.
      split; [discriminate|]. intros ->. discriminate E.
Qed.

(** ** More on the contiguity scan *)

Lemma collapse_covered (bases : list Z) (x : Z) :
  covered (collapse bases) x = true <-> In x bases.
Proof.
  rewrite <- flat_expand_In. destruct (collapse_spec bases) as [_ Hx].
  rewrite Hx. apply sorted_set_In.
Qed.

(** X6. The scan is the merger on points: it returns what [merge_ranges]
    returns on the ranges [(b, b)] of the bases. *)
Theorem collapse_is_merge_of_points (bases : list Z) :
  collapse bases = merge_ranges (map (fun b => (b, b)) bases).
Proof.
  destruct (collapse_spec bases) as [Hg _].
  destruct (@merge_ranges_spec (map (fun b => (b, b)) bases)) as [Hg' Hc'].
  { apply Forall_forall. intros r Hr. apply in_map_iff in Hr.
    destruct Hr as [b [<- _]]. unfold valid, lo, hi. simpl. lia. }
  apply gap_chain_unique; [exact Hg | exact Hg' |].
  intros x. rewrite Hc'. apply eq_iff_eq_true. rewrite collapse_covered.
  rewrite covered_iff. split.
  - intros Hx. exists (x, x). split; [apply in_map_iff; exists x; auto|].
    apply covers_iff. unfold lo, hi. simpl. lia.
  - intros [r [Hr Hx]]. apply in_map_iff in Hr. destruct Hr as [b [<- Hb]].
    apply covers_iff in Hx. unfold lo, hi in Hx. simpl in Hx.
    assert (x = b) by lia. now subst.
Qed.

(** X7. The scan depends on the set of bases only: two lists with the same
    elements, in any order and with any repetitions, give the same ranges. *)
Theorem collapse_depends_on_set (bases bases' : list Z) :
  (forall x, In x bases <-> In x bases') -> collapse bases = collapse bases'.
Proof.
  intros Hsame.
  destruct (collapse_spec bases) as [Hg _].
  destruct (collapse_spec bases') as [Hg' _].
  apply gap_chain_unique; [exact Hg | exact Hg' |].
  intros x. apply eq_iff_eq_true. rewrite !collapse_covered. apply Hsame.
Qed.

Lemma collapse_depends_on_set_witness :
  collapse [0x12; 0x10; 0x11; 0x10; 0x20] = collapse [0x10; 0x11; 0x12; 0x20].
Proof.
  apply collapse_depends_on_set. intros x. simpl. split; intros H;
    repeat (destruct H as [H|H]; [subst; simpl; tauto|]); contradiction.
Defined.

(** ** The line loop, in full *)

Section CollectFull.
Variable A : Type.
Variable step : str -> result (option A).

Lemma collect_ret_inv (lines : list str) :
  forall acc out,
    collect step acc lines = ret out ->
    Forall (fun l => returns (step l)) lines /\
    out = acc ++ flat_map (yields step) lines.
Proof.
  induction lines as [|l lines IH]; intros acc out; simpl.
  - intros H. injection H as <-. split; [constructor | now rewrite app_nil_r].
  - unfold yields at 1. destruct (step l) as [e|r] eqn:E; simpl; [discriminate|].
    intros H. destruct (IH _ _ H) as [Hall Hout].
    split; [constructor; [now exists r | exact Hall]|].
    rewrite Hout. destruct r; simpl; [now rewrite <- app_assoc | reflexivity].
Qed.

Lemma collect_ret_intro (lines : list str) :
  forall acc,
    Forall (fun l => returns (step l)) lines ->
    collect step acc lines = ret (acc ++ flat_map (yields step) lines).
Proof.
  induction lines as [|l lines IH]; intros acc Hall; simpl.
  - now rewrite app_nil_r.
  - inversion Hall as [|? ? [r Hr] Hall']; subst.
    unfold yields at 1. rewrite Hr. simpl. rewrite (IH _ Hall').
    destruct r; simpl; [now rewrite <- app_assoc | reflexivity].
Qed.

Lemma collect_raise_inv (lines : list str) :
  forall acc e,
    collect step acc lines = raise e ->
    exists before line after,
      lines = before ++ line :: after /\
      Forall (fun l => returns (step l)) before /\
      step line = raise e.
Proof.
  induction lines as [|l lines IH]; intros acc e; simpl; [discriminate|].
  destruct (step l) as [e'|r] eqn:E; simpl.
  - intros H. exists [], l, lines. split; [reflexivity|]. split; [constructor|].
    rewrite E. unfold raise in *. injection H as ->. reflexivity.
  - intros H. destruct (IH _ _ H) as [before [line [after [-> [Hall Hl]]]]].
    exists (l :: before), line, after. split; [reflexivity|].
    split; [constructor; [now exists r | exact Hall] | exact Hl].
Qed.

Lemma collect_raise_intro (before : list str) :
  forall acc line after e,
    Forall (fun l => returns (step l)) before ->
    step line = raise e ->
    collect step acc (before ++ line :: after) = raise e.
Proof.
  induction before as [|l before IH]; intros acc line after e Hall Hl; simpl.
  - now rewrite Hl.
  - inversion Hall as [|? ? [r Hr] Hall']; subst. rewrite Hr. simpl.
    now apply IH.
Qed.

Lemma yields_In (lines : list str) (a : A) :
  In a (flat_map (yields step) lines) <->
  exists line, In line lines /\ step line = ret (Some a).
Proof.
  rewrite in_flat_map. unfold yields. split.
  - intros [line [Hin Ha]]. exists line. split; [exact Hin|].
    destruct (step line) as [e|[b|]]; try contradiction.
    destruct Ha as [->|[]]. reflexivity.
  - intros [line [Hin Ha]]. exists line. split; [exact Hin|].
    rewrite Ha. now left.
Qed.

Lemma collect_perm (lines lines' : list str) (out : list A) :
  Permutation lines lines' ->
  collect step [] lines = ret out ->
  exists out', collect step [] lines' = ret out' /\ Permutation out out'.
Proof.
  intros HP H. destruct (collect_ret_inv _ _ H) as [Hall ->].
  exists (flat_map (yields step) lines'). split.
  - apply (collect_ret_intro []). eapply Permutation_Forall; eauto.
  - simpl. now apply Permutation_flat_map.
Qed.
End CollectFull.

(** X8. Each parser raises exactly when one of the lines raises, and then
    with the exception of the first such line. *)
Theorem parsers_raise_at_first_bad_line (text : str) (e : exn) :
  (parse_east_asian_width text = raise e <->
   exists before line after,
     splitlines text = before ++ line :: after /\
     Forall (fun l => returns (eaw_line l)) before /\
     eaw_line line = raise e) /\
  (parse_emoji_vs16_bases text = raise e <->
   exists before line after,
     splitlines text = before ++ line :: after /\
     Forall (fun l => returns (emoji_line l)) before /\
     emoji_line line = raise e).
Proof.
  unfold parse_east_asian_width, parse_emoji_vs16_bases. split; split.
  - destruct (collect eaw_line [] (splitlines text)) as [e'|raw] eqn:E;
      simpl; [|discriminate].
    intros H. injection H as ->. eapply collect_raise_inv; eauto.
  - intros [before [line [after [-> [Hall Hl]]]]].
    now rewrite (collect_raise_intro _ [] _ after Hall Hl).
  - destruct (collect emoji_line [] (splitlines text)) as [e'|raw] eqn:E;
      simpl; [|discriminate].
    intros H. injection H as ->. eapply collect_raise_inv; eauto.
  - intros [before [line [after [-> [Hall Hl]]]]].
    now rewrite (collect_raise_intro _ [] _ after Hall Hl).
Qed.

(** X9. When [parse_east_asian_width] returns, a code point is covered by
    the returned ranges exactly when it lies in the range of some line of the
    document that the filter accepts. *)
Theorem east_asian_width_table_content (text : str) (out : list range) :
  parse_east_asian_width text = ret out ->
  forall x,
    covered out x = true <->
    exists line r,
      In line (splitlines text) /\ eaw_line line = ret (Some r) /\
      covers r x = true.
Proof.
  unfold parse_east_asian_width. intros H x.
  destruct (collect eaw_line [] (splitlines text)) as [e|raw] eqn:E;
    [discriminate|].
  simpl in H. injection H as <-.
  destruct (collect_ret_inv _ _ _ E) as [_ ->]. simpl.
  rewrite merge_ranges_covered, covered_iff. split.
  - intros [r [Hr Hx]]. apply yields_In in Hr. destruct Hr as [line [Hin Hl]].
    exists line, r. auto.
  - intros [line [r [Hin [Hl Hx]]]]. exists r. split; [|exact Hx].
    apply yields_In. exists line. auto.
Qed.

Lemma east_asian_width_table_content_witness :
  let text := lit "FF01..FF03;F" ++ newline ++ lit "0041;Na" ++ newline
                ++ lit "FF04;W" in
  parse_east_asian_width text = ret [(0xFF01, 0xFF04)] /\
  exists line r,
    In line (splitlines text) /\ eaw_line line = ret (Some r) /\
    covers r 0xFF04 = true.
Proof.
  intros text.
  assert (H : parse_east_asian_width text = ret [(0xFF01, 0xFF04)]) by reflexivity.
  split; [exact H|].
  apply (proj1 (east_asian_width_table_content text H 0xFF04)). reflexivity.
Defined.

(** X10. When [parse_emoji_vs16_bases] returns, the ranges are non-empty,
    in ascending order with a gap between neighbours, and a code point is
    covered exactly when some line of the document yields it as a base. *)
Theorem emoji_table_content (text : str) (out : list range) :
  parse_emoji_vs16_bases text = ret out ->
  Forall valid out /\
  StronglySorted (fun r s => hi r + 1 < lo s) out /\
  forall x,
    covered out x = true <->
    exists line, In line (splitlines text) /\ emoji_line line = ret (Some x).
Proof.
  unfold parse_emoji_vs16_bases. intros H.
  destruct (collect emoji_line [] (splitlines text)) as [e|bases] eqn:E;
    [discriminate|].
  simpl in H. injection H as <-.
  destruct (collect_ret_inv _ _ _ E) as [_ ->]. simpl.
  destruct (collapse_spec (flat_map (yields emoji_line) (splitlines text)))
    as [Hg _].
  split; [now apply gap_chain_valid|]. split; [now apply gap_chain_sorted|].
  intros x. rewrite collapse_covered. apply yields_In.
Qed.

Lemma emoji_table_content_witness :
  let text := lit "0023 FE0F ; emoji style" ++ newline
                ++ lit "0024 FE0F ; emoji style" ++ newline
                ++ lit "0026 FE0E ; emoji style" in
  parse_emoji_vs16_bases text = ret [(0x23, 0x24)] /\
  exists line, In line (splitlines text) /\ emoji_line line = ret (Some 0x24).
Proof.
  intros text.
  assert (H : parse_emoji_vs16_bases text = ret [(0x23, 0x24)]) by reflexivity.
  split; [exact H|].
  apply (proj1 (proj2 (proj2 (emoji_table_content text H)) 0x24)). reflexivity.
Defined.

(** X11. The order of the lines does not matter: on two documents with the
    same lines in another order each parser returns the same ranges. *)
Theorem parsers_ignore_line_order (text text' : str) :
  Permutation (splitlines text) (splitlines text') ->
  (forall out, parse_east_asian_width text = ret out ->
               parse_east_asian_width text' = ret out) /\
  (forall out, parse_emoji_vs16_bases text = ret out ->
               parse_emoji_vs16_bases text' = ret out).
Proof.
  intros HP. unfold parse_east_asian_width, parse_emoji_vs16_bases. split.
  - intros out H.
    destruct (collect eaw_line [] (splitlines text)) as [e|raw] eqn:E;
      [discriminate|].
    simpl in H. injection H as <-.
    destruct (collect_perm _ HP E) as [raw' [-> Hraw]]. simpl. f_equal.
    rewrite !merge_ranges_eq.
    assert (Hs : sorted tuple_lt raw = sorted tuple_lt raw').
    { apply sorted_permutation_invariant with (le := tuple_le).
      - apply tuple_lt_false_le.
      - apply tuple_lt_true_le.
      - apply tuple_le_trans.
      - apply tuple_le_antisym.
      - exact Hraw. }
    now rewrite Hs.
  - intros out H.
    destruct (collect emoji_line [] (splitlines text)) as [e|bases] eqn:E;
      [discriminate|].
    simpl in H. injection H as <-.
    destruct (collect_perm _ HP E) as [bases' [-> Hb]]. simpl. f_equal.
    destruct (collapse_spec bases) as [Hg _].
    destruct (collapse_spec bases') as [Hg' _].
    apply gap_chain_unique; [exact Hg' | exact Hg |].
    intros x. apply eq_iff_eq_true. rewrite !collapse_covered.
    split; intros Hx.
    + eapply Permutation_in; [symmetry; exact Hb | exact Hx].
    + eapply Permutation_in; [exact Hb | exact Hx].
Qed.

Lemma parsers_ignore_line_order_witness :
  let text := lit "FF01..FF03;F" ++ newline ++ lit "3000;W" in
  let text' := lit "3000;W" ++ newline ++ lit "FF01..FF03;F" in
  Permutation (splitlines text) (splitlines text') /\
  parse_east_asian_width text' = ret [(0x3000, 0x3000); (0xFF01, 0xFF03)].
Proof.
  intros text text'.
  assert (HP : Permutation (splitlines text) (splitlines text'))
    by apply perm_swap.
  split; [exact HP|].
  apply (proj1 (parsers_ignore_line_order text text' HP)). reflexivity.
Defined.

(** ** When a line raises *)

Lemma contains_split_pair_length (s : str) :
  contains (lit "..") s = true ->
  (2 <= List.length (split_pair "." "." s))%nat.
Proof.
  induction s as [|x s IH]; [discriminate|].
  destruct s as [|y s'].
  - intros H. cbn [contains] in H.
    change (starts_with (lit "..") [x])
      with (Ascii.eqb "." x && false) in H.
    rewrite andb_false_r in H. discriminate.
  - intros H. cbn [contains] in H.
    change (starts_with (lit "..") (x :: y :: s'))
      with (Ascii.eqb "." x && (Ascii.eqb "." y && true)) in H.
    change (split_pair "." "." (x :: y :: s')) with
      (if Ascii.eqb x "." && Ascii.eqb y "."
       then [] :: split_pair "." "." s'
       else cons_head x (split_pair "." "." (y :: s'))).
    rewrite (Ascii.eqb_sym "." x), (Ascii.eqb_sym "." y), andb_true_r in H.
    destruct (Ascii.eqb x "." && Ascii.eqb y ".").
    + pose proof (@split_pair_nonempty "." "." s') as Hne.
      destruct (split_pair "." "." s'); [congruence | simpl; lia].
    + rewrite cons_head_length by apply split_pair_nonempty.
      apply IH. exact H.
Qed.

Lemma range_tokens_cases (tok : str) :
  (exists l h, range_tokens tok = ret (l, h)) \/
  (exists n,
     (3 <= n)%nat /\ List.length (split_pair "." "." tok) = n /\
     range_tokens tok = raise (ValueError_unpack n)).
Proof.
  unfold range_tokens. destruct (contains (lit "..") tok) eqn:E.
  - pose proof (contains_split_pair_length tok E) as Hlen.
    destruct (split_pair "." "." tok) as [|p0 [|p1 [|p2 ps]]];
      simpl in Hlen; try lia.
    + left. eauto.
    + right. eexists. split; [|split; reflexivity]. simpl. lia.
  - left. eauto.
Qed.

Lemma int_pair_raises (l h : str) (e : exn) :
  (x <- py_int16 l ;; y <- py_int16 h ;; ret (Some (x, y))) = raise e <->
  (int16 l = None /\ e = ValueError_literal l) \/
  (int16 l <> None /\ int16 h = None /\ e = ValueError_literal h).
Proof.
  unfold py_int16, bind, ret, raise.
  destruct (int16 l) as [x|]; destruct (int16 h) as [y|]; split;
    try (intros H; discriminate H);
    try (intros H; injection H as <-; auto; right; repeat split; congruence);
    try (intros [[H1 H2]|[H1 [H2 H3]]]; congruence).
Qed.

(** X12. A line of the East Asian Width document raises exactly when its
    second field is ["W"] or ["F"] and its token either splits on [".."] into
    three parts or more (the unpacking fails) or hands [int] a string that is
    no literal, the left one being read first; other lines never raise. *)
Theorem eaw_line_raises_exactly (line : str) (e : exn) :
  eaw_line line = raise e <->
  exists tok prop rest,
    split_fields line = Some (tok :: prop :: rest) /\
    (prop = lit "W" \/ prop = lit "F") /\
    ((exists n,
        (3 <= n)%nat /\ List.length (split_pair "." "." tok) = n /\
        range_tokens tok = raise (ValueError_unpack n) /\
        e = ValueError_unpack n) \/
     (exists l h,
        range_tokens tok = ret (l, h) /\
        ((int16 l = None /\ e = ValueError_literal l) \/
         (int16 l <> None /\ int16 h = None /\ e = ValueError_literal h)))).
Proof.
  split.
  - unfold eaw_line.
    destruct (split_fields line) as [[|tok [|prop rest]]|] eqn:Ef;
      try discriminate.
    intros H. exists tok, prop, rest. split; [reflexivity|].
    assert (Hp : prop = lit "W" \/ prop = lit "F").
    { unfold eaw_record in H.
      destruct (str_eqb prop (lit "W")) eqn:EW; [apply str_eqb_eq in EW; auto|].
      destruct (str_eqb prop (lit "F")) eqn:EF; [apply str_eqb_eq in EF; auto|].
      discriminate. }
    split; [exact Hp|]. rewrite (eaw_record_accepts tok rest Hp) in H.
    destruct (range_tokens_cases tok) as [[l [h Ht]]|[n [Hn [Hlen Ht]]]];
      rewrite Ht in H.
    + right. exists l, h. split; [exact Ht|].
      apply int_pair_raises. exact H.
    + left. exists n. simpl in H. unfold raise in H. injection H as <-. auto.
  - intros [tok [prop [rest [Hf [Hp Hcase]]]]].
    rewrite (eaw_line_fields _ Hf), (eaw_record_accepts tok rest Hp).
    destruct Hcase as [[n [_ [_ [Ht ->]]]]|[l [h [Ht Hint]]]]; rewrite Ht.
    + reflexivity.
    + apply (proj2 (int_pair_raises l h e)). exact Hint.
Qed.

(** X13. A line of the emoji document raises exactly when its style field
    is ["emoji style"], its first field splits into two tokens and one of
    them is no base-16 literal, the first token being read first; lines of
    any other style or token count never raise. *)
Theorem emoji_line_raises_exactly (line : str) (e : exn) :
  emoji_line line = raise e <->
  exists seq style rest p0 p1,
    split_fields line = Some (seq :: style :: rest) /\
    style = lit "emoji style" /\
    split_whitespace seq = [p0; p1] /\
    ((int16 p0 = None /\ e = ValueError_literal p0) \/
     (int16 p0 <> None /\ int16 p1 = None /\ e = ValueError_literal p1)).
Proof.
  split.
  - unfold emoji_line.
    destruct (split_fields line) as [[|seq [|style rest]]|] eqn:Ef;
      try discriminate.
    unfold emoji_record.
    destruct (str_eqb style (lit "emoji style")) eqn:Es; simpl; [|discriminate].
    apply str_eqb_eq in Es.
    destruct (split_whitespace seq) as [|p0 [|p1 [|p2 ps]]] eqn:Ew;
      try discriminate.
    intros H. exists seq, style, rest, p0, p1.
    split; [reflexivity|]. split; [exact Es|]. split; [exact Ew|].
    unfold py_int16, bind, ret, raise in H.
    destruct (int16 p0) as [x|].
    + destruct (int16 p1) as [y|].
      * destruct (negb (y =? VS16)); discriminate.
      * injection H as <-. right. repeat split; congruence.
    + injection H as <-. left. auto.
  - intros [seq [style [rest [p0 [p1 [Hf [-> [Hw Hint]]]]]]]].
    rewrite (emoji_line_fields _ Hf). unfold emoji_record. simpl. rewrite Hw.
    unfold py_int16, bind, ret, raise.
    destruct Hint as [[H0 ->]|[H0 [H1 ->]]].
    + now rewrite H0.
    + destruct (int16 p0) as [x|]; [|congruence]. now rewrite H1.
Qed.

(** ** The driver *)


(** ** The record parser *)

Lemma split_once_before (sep : ascii) (s c : str) :
  ~ In sep s -> hd [] (split_once sep (s ++ sep :: c)) = s.
Proof.
  induction s as [|x s IH]; intros Hn; simpl.
  - now rewrite Ascii.eqb_refl.
  - destruct (Ascii.eqb x sep) eqn:E.
    + apply Ascii.eqb_eq in E. subst x. exfalso. apply Hn. now left.
    + assert (Hs : ~ In sep s) by (intros H; apply Hn; now right).
      specialize (IH Hs).
      destruct (split_once sep (s ++ sep :: c)) as [|p ps]; simpl in *;
        congruence.
Qed.

Lemma split_once_absent (sep : ascii) (s : str) :
  ~ In sep s -> hd [] (split_once sep s) = s.
Proof.
  induction s as [|x s IH]; intros Hn; simpl; [reflexivity|].
  destruct (Ascii.eqb x sep) eqn:E.
  - apply Ascii.eqb_eq in E. subst x. exfalso. apply Hn. now left.
  - assert (Hs : ~ In sep s) by (intros H; apply Hn; now right).
    specialize (IH Hs).
    destruct (split_once sep s) as [|p ps]; simpl in *; congruence.
Qed.

(** X15. A comment changes nothing: what follows the first [#] of a line
    is ignored by the record parser and so by both filters. *)
Theorem comments_are_ignored (s comment : str) :
  ~ In "#"%char s ->
  split_fields (s ++ "#"%char :: comment) = split_fields s /\
  eaw_line (s ++ "#"%char :: comment) = eaw_line s /\
  emoji_line (s ++ "#"%char :: comment) = emoji_line s.
Proof.
  intros Hn.
  assert (H : split_fields (s ++ "#"%char :: comment) = split_fields s).
  { unfold split_fields.
    now rewrite (@split_once_before "#" s comment Hn), (@split_once_absent "#" s Hn). }
  unfold eaw_line, emoji_line. rewrite H. auto.
Qed.

Lemma comments_are_ignored_witness :
  eaw_line (lit "3000;W  # IDEOGRAPHIC SPACE; W") = eaw_line (lit "3000;W  ") /\
  eaw_line (lit "3000;W  ") = ret (Some (0x3000, 0x3000)).
Proof.
  split; [|reflexivity].
  apply (@comments_are_ignored (lit "3000;W  ") (lit " IDEOGRAPHIC SPACE; W")).
  simpl. intros H.
  repeat (destruct H as [H|H]; [discriminate H|]). exact H.
Defined.

Lemma lstrip_all_space (s : str) : Forall (fun c => isspace c = true) s -> lstrip s = [].
Proof.
  induction 1 as [|c s Hc Hs IH]; simpl; [reflexivity|]. now rewrite Hc.
Qed.

(** X16. Blank lines and lines that hold only a comment yield nothing and
    raise nothing in either filter. *)
Theorem blank_and_comment_lines_are_skipped (s comment : str) :
  Forall (fun c => isspace c = true) s ->
  eaw_line s = ret None /\ emoji_line s = ret None /\
  eaw_line (s ++ "#"%char :: comment) = ret None /\
  emoji_line (s ++ "#"%char :: comment) = ret None.
Proof.
  intros Hs.
  assert (Hn : ~ In "#"%char s).
  { rewrite Forall_forall in Hs. intros H. specialize (Hs _ H). discriminate Hs. }
  assert (H1 : split_fields s = None).
  { unfold split_fields. rewrite (@split_once_absent "#" s Hn).
    unfold strip. now rewrite (lstrip_all_space Hs). }
  assert (H2 : split_fields (s ++ "#"%char :: comment) = None).
  { unfold split_fields. rewrite (@split_once_before "#" s comment Hn).
    unfold strip. now rewrite (lstrip_all_space Hs). }
  unfold eaw_line, emoji_line. now rewrite H1, H2.
Qed.

Lemma blank_and_comment_lines_are_skipped_witness :
  eaw_line (lit "   ") = ret None /\
  emoji_line (lit "  # emoji-variation-sequences.txt") = ret None.
Proof.
  pose proof (@blank_and_comment_lines_are_skipped (lit "   ") []) as H1.
  pose proof (@blank_and_comment_lines_are_skipped (lit "  ")
                (lit " emoji-variation-sequences.txt")) as H2.
  assert (F3 : Forall (fun c => isspace c = true) (lit "   "))
    by (repeat constructor).
  assert (F2 : Forall (fun c => isspace c = true) (lit "  "))
    by (repeat constructor).
  split; [exact (proj1 (H1 F3)) | exact (proj2 (proj2 (proj2 (H2 F2))))].
Defined.

Lemma lstrip_Forall (P : ascii -> Prop) (s : str) : Forall P s -> Forall P (lstrip s).
Proof.
  induction 1 as [|c s Hc Hs IH]; simpl; [constructor|].
  destruct (isspace c); [exact IH | now constructor].
Qed.

Lemma strip_Forall (P : ascii -> Prop) (s : str) : Forall P s -> Forall P (strip s).
Proof.
  intros H. unfold strip, rstrip.
  apply Forall_rev, lstrip_Forall, Forall_rev, lstrip_Forall, H.
Qed.

Lemma lstrip_idem (s : str) : lstrip (lstrip s) = lstrip s.
Proof.
  induction s as [|c s IH]; simpl; [reflexivity|].
  destruct (isspace c) eqn:E; [exact IH|]. simpl. now rewrite E.
Qed.

Lemma lstrip_snoc (c : ascii) (v0 : str) :
  isspace c = false -> exists v, lstrip (v0 ++ [c]) = v ++ [c].
Proof.
  intros Hc. induction v0 as [|x v0 [v IH]]; simpl.
  - exists []. now rewrite Hc.
  - destruct (isspace x); [exists v; exact IH | exists (x :: v0); reflexivity].
Qed.

Lemma strip_idem (s : str) : strip (strip s) = strip s.
Proof.
  unfold strip, rstrip.
  assert (Hl : lstrip (rev (lstrip (rev (lstrip s)))) = rev (lstrip (rev (lstrip s)))).
  { destruct (lstrip s) as [|c t] eqn:E; [reflexivity|].
    assert (Hc : isspace c = false).
    { pose proof (lstrip_idem s) as Hi. rewrite E in Hi. simpl in Hi.
      destruct (isspace c) eqn:Ec; [|reflexivity].
      exfalso. assert (Hlen : List.length (lstrip t) = List.length (c :: t))
        by now rewrite Hi.
      clear - Hlen. simpl in Hlen.
      assert (Hle : forall u, (List.length (lstrip u) <= List.length u)%nat).
      { induction u as [|x u IHu]; simpl; [lia|].
        destruct (isspace x); simpl; lia. }
      specialize (Hle t). lia. }
    simpl rev. destruct (@lstrip_snoc c (rev t) Hc) as [v Hv].
    rewrite Hv, rev_app_distr. simpl. now rewrite Hc. }
  rewrite Hl, rev_involutive, lstrip_idem. reflexivity.
Qed.

Lemma cons_head_Forall (P : str -> Prop) (c : ascii) (parts : list str) :
  (forall p, P p -> P (c :: p)) -> P [c] -> Forall P parts ->
  Forall P (cons_head c parts).
Proof.
  intros Hstep Hone [|p ps Hp Hps]; simpl; constructor; auto.
Qed.

Lemma split_char_no_sep (sep : ascii) (s : str) :
  Forall (fun p => ~ In sep p) (split_char sep s).
Proof.
  induction s as [|c s IH]; simpl.
  - constructor; [tauto | constructor].
  - destruct (Ascii.eqb c sep) eqn:E.
    + constructor; [tauto | exact IH].
    + apply Ascii.eqb_neq in E. apply cons_head_Forall; [| |exact IH].
      * intros p Hp [H|H]; [congruence | contradiction].
      * intros [H|[]]. congruence.
Qed.

Lemma split_char_Forall (P : ascii -> Prop) (sep : ascii) (s : str) :
  Forall P s -> Forall (Forall P) (split_char sep s).
Proof.
  induction 1 as [|c s Hc Hs IH]; simpl.
  - repeat constructor.
  - destruct (Ascii.eqb c sep).
    + constructor; [constructor | exact IH].
    + apply cons_head_Forall; [| |exact IH].
      * intros p Hp. now constructor.
      * repeat constructor. exact Hc.
Qed.

Lemma split_once_hd_no_sep (sep : ascii) (s : str) :
  Forall (fun c => c <> sep) (hd [] (split_once sep s)).
Proof.
  induction s as [|c s IH]; simpl; [constructor|].
  destruct (Ascii.eqb c sep) eqn:E; [constructor|].
  apply Ascii.eqb_neq in E.
  destruct (split_once sep s) as [|p ps]; simpl in *; repeat constructor; auto.
Qed.

(** X17. What the record parser hands to the filters: at least two fields,
    each without white space at either end and holding neither [;] nor
    [#]. *)
Theorem split_fields_invariants (line : str) (fields : list str) :
  split_fields line = Some fields ->
  (2 <= List.length fields)%nat /\
  Forall (fun f => strip f = f /\ ~ In ";"%char f /\ ~ In "#"%char f) fields.
Proof.
  unfold split_fields.
  pose proof (strip_Forall (split_once_hd_no_sep "#" line)) as Hhash.
  destruct (strip (hd [] (split_once "#" line))) as [|c t] eqn:Et;
    [discriminate|].
  destruct (List.length (map strip (split_char ";" (c :: t))) <? 2)%nat eqn:El;
    [discriminate|].
  intros H. injection H as <-. apply Nat.ltb_ge in El. split; [exact El|].
  apply Forall_map.
  pose proof (split_char_no_sep ";" (c :: t)) as Hsemi.
  pose proof (split_char_Forall ";" Hhash) as Hparts.
  rewrite Forall_forall in *. intros p Hp.
  split; [apply strip_idem|]. split.
  - intros Hin.
    assert (Hall : Forall (fun x => x <> ";"%char) p).
    { apply Forall_forall. intros x Hx ->. exact (Hsemi p Hp Hx). }
    apply (strip_Forall) in Hall. rewrite Forall_forall in Hall.
    exact (Hall _ Hin eq_refl).
  - intros Hin. pose proof (strip_Forall (Hparts p Hp)) as Hall.
    rewrite Forall_forall in Hall. exact (Hall _ Hin eq_refl).
Qed.

Lemma split_fields_invariants_witness :
  split_fields (lit "  FF01..FF03 ; F ; x # fullwidth; forms")
  = Some [lit "FF01..FF03"; lit "F"; lit "x"] /\
  (2 <= 3)%nat.
Proof.
  assert (H : split_fields (lit "  FF01..FF03 ; F ; x # fullwidth; forms")
              = Some [lit "FF01..FF03"; lit "F"; lit "x"]) by reflexivity.
  split; [exact H|]. exact (proj1 (split_fields_invariants _ H)).
Defined.

(** ** The hexadecimal literals of the generated file *)

Ltac hex_step IH :=
  unfold hex_chars;
  cbn [HexadecimalString.NilEmpty.string_of_uint lit list_ascii_of_string map];
  match goal with
  | |- context [map upper (list_ascii_of_string (HexadecimalString.NilEmpty.string_of_uint ?d))] =>
      change (map upper (list_ascii_of_string (HexadecimalString.NilEmpty.string_of_uint d)))
        with (hex_chars d)
  end.

Lemma scan_hex_chars (d : Hexadecimal.uint) :
  forall a,
    scan_digits false (Z.of_N (HexadecimalPos.Unsigned.of_lu a)) (hex_chars d)
    = Some (Z.of_N (HexadecimalPos.Unsigned.of_lu (Hexadecimal.revapp d a)), []).
Proof.
  induction d as [|d IH|d IH|d IH|d IH|d IH|d IH|d IH|d IH|d IH|d IH|d IH|d IH
                  |d IH|d IH|d IH|d IH]; intros a;
    [reflexivity|..];
    hex_step IH; cbn [scan_digits];
    match goal with
    | |- context [hex_digit ?c] =>
        let v := eval vm_compute in (hex_digit c) in
        change (hex_digit c) with v
    end; cbv iota beta; cbn [Hexadecimal.revapp];
    rewrite <- IH; f_equal; cbn [HexadecimalPos.Unsigned.of_lu]; lia.
Qed.

Lemma hex_chars_digits (d : Hexadecimal.uint) :
  Forall (fun c => hex_digit c <> None) (hex_chars d).
Proof.
  induction d; unfold hex_chars;
    cbn [HexadecimalString.NilEmpty.string_of_uint lit list_ascii_of_string map];
    constructor; try exact IHd; vm_compute; discriminate.
Qed.

Lemma hex_char_facts (c : ascii) :
  hex_digit c <> None ->
  isspace_int c = false /\ Ascii.eqb c "x" = false /\ Ascii.eqb c "X" = false /\
  Ascii.eqb c "+" = false /\ Ascii.eqb c "-" = false.
Proof.
  destruct c as [[] [] [] [] [] [] [] []]; intros H;
    try (exfalso; apply H; reflexivity); repeat split; reflexivity.
Qed.

Lemma scan_zeros (k : nat) (s : str) :
  scan_digits false 0 (repeat "0"%char k ++ s) = scan_digits false 0 s.
Proof. induction k as [|k IH]; [reflexivity | exact IH]. Qed.

Lemma parse_digits_scan (s : str) :
  s <> [] -> Forall (fun c => hex_digit c <> None) s ->
  parse_digits s = scan_digits false 0 s.
Proof.
  intros Hne Hall. destruct s as [|c s]; [congruence|].
  inversion Hall as [|? ? Hc _]; subst. simpl.
  destruct (hex_digit c); [reflexivity | congruence].
Qed.

Lemma skip_prefix_digits (s : str) :
  Forall (fun c => hex_digit c <> None) s -> skip_prefix s = s.
Proof.
  intros Hall. destruct s as [|z [|x s]]; try reflexivity.
  inversion Hall as [|? ? _ Hall']; subst. inversion Hall' as [|? ? Hx _]; subst.
  destruct (@hex_char_facts _ Hx) as [_ [E1 [E2 _]]].
  unfold skip_prefix. rewrite E1, E2. simpl. now rewrite andb_false_r.
Qed.

Lemma to_hex_uint_chars (m : N) :
  map upper (lit (HexadecimalString.NilZero.string_of_uint (N.to_hex_uint m)))
  = hex_chars (N.to_hex_uint m) /\ hex_chars (N.to_hex_uint m) <> [].
Proof.
  assert (Hn : N.to_hex_uint m <> Hexadecimal.Nil).
  { destruct m; [discriminate|]. apply HexadecimalPos.Unsigned.to_uint_nonnil. }
  unfold hex_chars.
  destruct (N.to_hex_uint m); try congruence; split; try reflexivity; discriminate.
Qed.

(** X18. Every bound is written with at least four characters and as a
    literal whose base-16 value is the bound itself: nothing is truncated, for
    values above [0xFFFF] and for negative ones alike. *)
Theorem format_04X_reads_back (n : Z) :
  (4 <= List.length (format_04X n))%nat /\ int16 (format_04X n) = Some n.
Proof.
  unfold format_04X.
  destruct (to_hex_uint_chars (Z.abs_N n)) as [-> Hne].
  set (d := N.to_hex_uint (Z.abs_N n)) in *.
  set (sign := if n <? 0 then lit "-" else []).
  set (body := repeat "0"%char (4 - List.length sign - List.length (hex_chars d))
                 ++ hex_chars d).
  split; [unfold body; rewrite !length_app, repeat_length; lia|].
  assert (Hall : Forall (fun c => hex_digit c <> None) body).
  { apply Forall_app. split; [|apply hex_chars_digits].
    apply Forall_forall. intros c Hc. apply repeat_spec in Hc. subst c.
    discriminate. }
  assert (Hbody : body <> []).
  { unfold body. intros H. apply app_eq_nil in H. tauto. }
  assert (Hparse : parse_digits (skip_prefix body) = Some (Z.of_N (Z.abs_N n), [])).
  { rewrite (@skip_prefix_digits _ Hall), (@parse_digits_scan _ Hbody Hall).
    unfold body. rewrite scan_zeros.
    pose proof (scan_hex_chars d Hexadecimal.Nil) as Hs.
    change (Z.of_N (HexadecimalPos.Unsigned.of_lu Hexadecimal.Nil)) with 0 in Hs.
    rewrite Hs. do 3 f_equal.
    change (Hexadecimal.revapp d Hexadecimal.Nil) with (Hexadecimal.rev d).
    rewrite <- HexadecimalPos.Unsigned.of_uint_alt.
    apply (HexadecimalN.Unsigned.of_to (Z.abs_N n)). }
  unfold int16, sign. destruct (n <? 0) eqn:E.
  - apply Z.ltb_lt in E. change (lit "-" ++ body) with ("-"%char :: body).
    change (skip_sign (skip_spaces ("-"%char :: body))) with (true, body).
    cbv beta iota. rewrite Hparse. simpl. f_equal. lia.
  - apply Z.ltb_ge in E. simpl app.
    destruct body as [|c s] eqn:Eb; [congruence|].
    inversion Hall as [|? ? Hc _]; subst.
    destruct (@hex_char_facts _ Hc) as [E0 [_ [_ [E3 E4]]]].
    unfold skip_spaces. rewrite E0. unfold skip_sign. rewrite E3, E4.
    cbv beta iota. rewrite Hparse. simpl. f_equal. lia.
Qed.
